(** * bf.py: a Brainfuck interpreter, embedded and verified

    The development follows [bf.py]: the class [Array] (the tape), the
    function [make_brace_map] (the jump table) and the function
    [interpret] (the dispatch loop).  Python integers are [Z], list
    indices and program positions are [nat] (the pointer starts at 0, grows
    by [right] and shrinks only under the guard [ptr > 0] of [left], so it is
    never negative), the dict is a [gmap nat nat], exceptions are values of
    [exn] carried by [result].  A program is the list of its characters.
    The terminal is a list of code points: [getch] takes the first one, and
    [ord] of the empty string read at the end of the input raises
    [TypeError].  This assumes that stdin is a terminal, where the termios
    calls of [getch] succeed: what [getch] raises otherwise, and what
    [sys.stdout.write] raises for a character the output encoding lacks, is
    outside the model, and the properties below do not rest on which
    exception an input or output instruction ends with.  The [while] loop
    of [interpret] may
    run forever, so [run] takes a bound on the number of iterations and says
    when it was reached. *)

From Stdlib Require Import ZArith Ascii String List Lia.
From stdpp Require Import base option list gmap strings.

Local Open Scope Z_scope.

(** ** Exceptions and logging *)

(** The Python exceptions the program can raise. *)
Inductive exn : Type :=
| IndexError            (* list index out of range, pop from an empty deque *)
| ValueError            (* "Segmentation Fault" of [left]; [chr] out of range *)
| KeyError (k : nat)    (* [brace_map[position]] on a missing key *)
| TypeError.            (* [ord('')] when the input is exhausted *)

Inductive result (A : Type) : Type :=
| Ok (a : A)
| Raise (e : exn).
Arguments Ok {A} a.
Arguments Raise {A} e.

#[global] Instance result_ret : MRet result := fun A a => Ok a.
#[global] Instance result_bind : MBind result := fun A B f m =>
  match m with
  | Ok a => f a
  | Raise e => Raise e
  end.

(** What [logging.error] is called with. *)
Inductive log_record : Type :=
| BufferOverflow (pos : nat)
| BufferUnderflow (pos : nat).

(** ** class Array *)

Module Array.

Record t : Type := Build { array : list Z; ptr : nat }.

(** [[0] * 30000] *)
Definition size : nat := N.to_nat 30000.

(** [__init__] *)
Definition init : t := {| array := replicate size 0; ptr := 0 |}.

(** A tape of [L] zero cells with the pointer at 0 ([init] is [fresh size]). *)
Definition fresh (L : nat) : t := {| array := replicate L 0; ptr := 0 |}.

(** [self.array[self.ptr]]: an index past the end raises. *)
Definition get_data (m : t) : result Z :=
  match array m !! ptr m with
  | Some v => Ok v
  | None => Raise IndexError
  end.

(** [self.array[self.ptr] = n] *)
Definition set_data (n : Z) (m : t) : result t :=
  if decide (ptr m < length (array m))%nat
  then Ok {| array := <[ptr m := n]> (array m); ptr := ptr m |}
  else Raise IndexError.

(** [increment]: add one, then reduce modulo 256 when the new value is
    greater than 256. *)
Definition increment (m : t) : result (t * list log_record) :=
  v ← get_data m;
  m1 ← set_data (v + 1) m;
  v1 ← get_data m1;
  if 256 <? v1 then
    v2 ← get_data m1;
    m2 ← set_data (v2 `mod` 256) m1;
    Ok (m2, [BufferOverflow (ptr m)])
  else Ok (m1, []).

(** [decrement]: subtract one, then reduce modulo 256 when the new value is
    negative. *)
Definition decrement (m : t) : result (t * list log_record) :=
  v ← get_data m;
  m1 ← set_data (v - 1) m;
  v1 ← get_data m1;
  if v1 <? 0 then
    v2 ← get_data m1;
    m2 ← set_data (v2 `mod` 256) m1;
    Ok (m2, [BufferUnderflow (ptr m)])
  else Ok (m1, []).

(** [right]: advance the pointer, append a zero when it reaches the end. *)
Definition right (m : t) : t :=
  let p := S (ptr m) in
  if decide (length (array m) ≤ p)%nat
  then {| array := array m ++ [0]; ptr := p |}
  else {| array := array m; ptr := p |}.

(** [left]: step back, or raise [ValueError("Segmentation Fault")]. *)
Definition left (m : t) : result t :=
  if decide (0 < ptr m)%nat
  then Ok {| array := array m; ptr := ptr m - 1 |}
  else Raise ValueError.

End Array.

(** ** make_brace_map *)

(** The body of the [for position, command in enumerate(program)] loop.
    [temp_stack] is the deque, leftmost element first: [append] adds at the
    right end, [popleft] removes at the left end and raises [IndexError] on an
    empty deque. *)
Fixpoint brace_loop (program : list ascii) (position : nat)
    (temp_stack : list nat) (brace_map : gmap nat nat) : result (gmap nat nat) :=
  match program with
  | [] => Ok brace_map
  | command :: rest =>
      let temp_stack :=
        if (command =? "[")%char then temp_stack ++ [position] else temp_stack in
      if (command =? "]")%char then
        match temp_stack with
        | [] => Raise IndexError
        | start :: temp_stack =>
            brace_loop rest (S position) temp_stack
              (<[position := start]> (<[start := position]> brace_map))
        end
      else brace_loop rest (S position) temp_stack brace_map
  end.

Definition make_brace_map (program : list ascii) : result (gmap nat nat) :=
  brace_loop program 0%nat [] ∅.

(** ** interpret *)

(** The interpreter's variables together with the world it acts on: the
    characters still to be read by [getch] (as code points), the code points
    written to [sys.stdout], and the records passed to [logging.error]. *)
Record state : Type := State {
  machine : Array.t;
  position : nat;
  stdin : list Z;
  stdout : list Z;
  log : list log_record
}.

Definition initial (input : list Z) : state :=
  {| machine := Array.init; position := 0; stdin := input; stdout := []; log := [] |}.

Definition with_machine (s : state) (m : Array.t) (l : list log_record) : state :=
  {| machine := m; position := position s; stdin := stdin s;
     stdout := stdout s; log := log s ++ l |}.

Definition with_position (s : state) (p : nat) : state :=
  {| machine := machine s; position := p; stdin := stdin s;
     stdout := stdout s; log := log s |}.

(** [brace_map[position]] *)
Definition brace_lookup (brace_map : gmap nat nat) (p : nat) : result nat :=
  match brace_map !! p with
  | Some q => Ok q
  | None => Raise (KeyError p)
  end.

(** The [if]/[elif] chain of the loop body, before [position += 1]. *)
Definition dispatch (brace_map : gmap nat nat) (current_char : ascii) (s : state)
    : result state :=
  let m := machine s in
  if (current_char =? ">")%char then
    Ok (with_machine s (Array.right m) [])
  else if (current_char =? "<")%char then
    m' ← Array.left m; Ok (with_machine s m' [])
  else if (current_char =? "+")%char then
    '(m', l) ← Array.increment m; Ok (with_machine s m' l)
  else if (current_char =? "-")%char then
    '(m', l) ← Array.decrement m; Ok (with_machine s m' l)
  else if (current_char =? ".")%char then
    v ← Array.get_data m;
    if (0 <=? v) && (v <? 1114112) then
      Ok {| machine := m; position := position s; stdin := stdin s;
            stdout := stdout s ++ [v]; log := log s |}
    else Raise ValueError
  else if (current_char =? ",")%char then
    match stdin s with
    | [] => Raise TypeError
    | c :: input =>
        m' ← Array.set_data c m;
        Ok {| machine := m'; position := position s; stdin := input;
              stdout := stdout s; log := log s |}
    end
  else if (current_char =? "[")%char then
    v ← Array.get_data m;
    if v =? 0 then q ← brace_lookup brace_map (position s); Ok (with_position s q)
    else Ok s
  else if (current_char =? "]")%char then
    v ← Array.get_data m;
    if negb (v =? 0) then q ← brace_lookup brace_map (position s); Ok (with_position s q)
    else Ok s
  else Ok s.

(** One iteration of the [while] loop. *)
Definition step (program : list ascii) (brace_map : gmap nat nat) (s : state)
    : result state :=
  match program !! position s with
  | None => Raise IndexError
  | Some current_char =>
      s' ← dispatch brace_map current_char s;
      Ok (with_position s' (S (position s')))
  end.

(** How a run ends: the loop condition became false, an exception escaped
    (the state is the one the failing instruction started from), or the
    bound on the number of iterations was reached. *)
Inductive outcome : Type :=
| Finished (s : state)
| Crashed (e : exn) (s : state)
| OutOfFuel (s : state).

(** [while position < len(program)], for at most [fuel] iterations. *)
Fixpoint run (fuel : nat) (program : list ascii) (brace_map : gmap nat nat)
    (s : state) : outcome :=
  if decide (position s < length program)%nat then
    match fuel with
    | O => OutOfFuel s
    | S fuel =>
        match step program brace_map s with
        | Ok s' => run fuel program brace_map s'
        | Raise e => Crashed e s
        end
    end
  else Finished s.

Definition interpret (fuel : nat) (program : list ascii) (input : list Z) : outcome :=
  match make_brace_map program with
  | Ok brace_map => run fuel program brace_map (initial input)
  | Raise e => Crashed e (initial input)
  end.

(** The positions of the instructions a run executes, in order. *)
Fixpoint trace (fuel : nat) (program : list ascii) (brace_map : gmap nat nat)
    (s : state) : list nat :=
  if decide (position s < length program)%nat then
    match fuel with
    | O => []
    | S fuel =>
        position s ::
        match step program brace_map s with
        | Ok s' => trace fuel program brace_map s'
        | Raise e => []
        end
    end
  else [].

Definition prog (s : string) : list ascii := list_ascii_of_string s.

(** ** Sequences of tape operations *)

(** The methods of [Array] that change the tape, as data. *)
Inductive tape_op : Type :=
| Write (n : Z)     (* set_data(n) *)
| Increment         (* increment() *)
| Decrement         (* decrement() *)
| MoveRight         (* right() *)
| MoveLeft.         (* left() *)

Definition apply_op (o : tape_op) (m : Array.t) : result Array.t :=
  match o with
  | Write n => Array.set_data n m
  | Increment => '(m', _) ← Array.increment m; Ok m'
  | Decrement => '(m', _) ← Array.decrement m; Ok m'
  | MoveRight => Ok (Array.right m)
  | MoveLeft => Array.left m
  end.

(** The calls of [ops] one after the other; the first exception ends it. *)
Fixpoint apply_ops (ops : list tape_op) (m : Array.t) : result Array.t :=
  match ops with
  | [] => Ok m
  | o :: ops => m' ← apply_op o m; apply_ops ops m'
  end.

Definition is_write (o : tape_op) : bool :=
  match o with Write _ => true | _ => false end.

(** No call of [set_data] among [ops]. *)
Definition no_write (ops : list tape_op) : bool := forallb (fun o => negb (is_write o)) ops.

(** [o] stays within bytes when called on [m]: [set_data] is given a byte,
    and [increment] is not called on a cell that holds 255 or more. *)
Definition byte_op (o : tape_op) (m : Array.t) : bool :=
  match o with
  | Write n => (0 <=? n) && (n <=? 255)
  | Increment =>
      match Array.get_data m with
      | Ok v => v <? 255
      | Raise _ => true
      end
  | _ => true
  end.

(** Every call of [ops], started from [m], is a [byte_op] where it is made. *)
Fixpoint byte_ops (ops : list tape_op) (m : Array.t) : bool :=
  match ops with
  | [] => true
  | o :: ops =>
      byte_op o m &&
      match apply_op o m with
      | Ok m' => byte_ops ops m'
      | Raise _ => true
      end
  end.

(** [n] calls of [increment], with everything they log. *)
Fixpoint increment_n (n : nat) (m : Array.t) : result (Array.t * list log_record) :=
  match n with
  | O => Ok (m, [])
  | S n =>
      '(m1, l1) ← increment_n n m;
      '(m2, l2) ← Array.increment m1;
      Ok (m2, l1 ++ l2)
  end.

(** [n] calls of [right]. *)
Definition right_n (n : nat) (m : Array.t) : Array.t := Nat.iter n Array.right m.

(** The tape [m] with the current cell replaced by [v]. *)
Definition set_cell (v : Z) (m : Array.t) : Array.t :=
  {| Array.array := <[Array.ptr m := v]> (Array.array m); Array.ptr := Array.ptr m |}.

(** The pointer is an index of the array. *)
Definition valid (m : Array.t) : Prop := (Array.ptr m < length (Array.array m))%nat.

(** All cells of [m] lie between [lo] and [hi]. *)
Definition cells_within (lo hi : Z) (m : Array.t) : Prop :=
  Forall (fun v => lo ≤ v ≤ hi) (Array.array m).

(** ** Bracket structure, as the specification words it *)

(** The nesting depth after [program], started at depth [d]; [None] when a
    closing bracket occurs at depth 0 (an unmatched closing bracket). *)
Fixpoint depth_scan (program : list ascii) (d : nat) : option nat :=
  match program with
  | [] => Some d
  | c :: rest =>
      if (c =? "[")%char then depth_scan rest (S d)
      else if (c =? "]")%char then
        match d with
        | O => None
        | S d => depth_scan rest d
        end
      else depth_scan rest d
  end.

Definition unmatched_close (program : list ascii) : Prop := depth_scan program 0 = None.
Definition unmatched_open (program : list ascii) : Prop :=
  exists d, depth_scan program 0 = Some (S d).
Definition balanced (program : list ascii) : Prop := depth_scan program 0 = Some 0%nat.

(** The jump table of the specification (section 4.2): a last-in-first-out
    stack of pending opening brackets, most recent first; a closing bracket
    pairs with the most recently pushed one. [None] is the structural error. *)
Fixpoint jump_table_loop_spec (program : list ascii) (position : nat)
    (stack : list nat) (table : gmap nat nat) : option (gmap nat nat) :=
  match program with
  | [] => match stack with [] => Some table | _ :: _ => None end
  | c :: rest =>
      if (c =? "[")%char then jump_table_loop_spec rest (S position) (position :: stack) table
      else if (c =? "]")%char then
        match stack with
        | [] => None
        | start :: stack =>
            jump_table_loop_spec rest (S position) stack
              (<[position := start]> (<[start := position]> table))
        end
      else jump_table_loop_spec rest (S position) stack table
  end.

Definition build_jump_table_spec (program : list ascii) : option (gmap nat nat) :=
  jump_table_loop_spec program 0%nat [] ∅.

(** What the loop of [make_brace_map] maintains: the map pairs its keys both
    ways, its keys are positions already scanned, and the pending positions
    are distinct, already scanned, and not yet keys. *)
Definition brace_inv (pos : nat) (stack : list nat) (bm : gmap nat nat) : Prop :=
  (forall k q, bm !! k = Some q -> bm !! q = Some k) /\
  (forall k, is_Some (bm !! k) -> (k < pos)%nat) /\
  (forall k, k ∈ stack -> (k < pos)%nat /\ bm !! k = None) /\
  NoDup stack.

(** How often a run whose instructions were at the positions [tr] entered the
    body of the loop opened at position [open]. *)
Definition loop_iterations (open : nat) (tr : list nat) : nat :=
  length (filter (fun p => p = S open) tr).

(** An interpreter state whose tape begins with the cells [c] and [b]. *)
Definition two_cells (pos : nat) (c b : Z) (rest : list Z) (p : nat)
    (input output : list Z) (lg : list log_record) : state :=
  {| machine := {| Array.array := c :: b :: rest; Array.ptr := p |};
     position := pos; stdin := input; stdout := output; log := lg |}.

(** ** cleanup and execute *)

(** The list of [cleanup]'s lambda: ['.', ',', '[', ']', '<', '>', '+', '-']. *)
Definition commands : list ascii := [".";  ","; "["; "]"; "<"; ">"; "+"; "-"]%char.

(** [x in ['.', ',', '[', ']', '<', '>', '+', '-']] *)
Definition is_command (x : ascii) : bool := existsb (Ascii.eqb x) commands.

(** [''.join(filter(lambda x: x in [...], code))] *)
Definition cleanup (code : list ascii) : list ascii := List.filter is_command code.

(** [execute], given the text that [f.read()] returns for the file. *)
Definition execute (fuel : nat) (text : list ascii) (input : list Z) : outcome :=
  interpret fuel (cleanup text) input.

(** ** Vocabulary of the further properties *)

(** How many calls of [right] there are among [ops]. *)
Definition count_right (ops : list tape_op) : nat :=
  length (List.filter (fun o => match o with MoveRight => true | _ => false end) ops).

(** What [ord] returns and [chr] accepts: a Unicode code point. *)
Definition code_point (c : Z) : Prop := 0 <= c < 1114112.

(** The states a run goes through: the pointer is inside the array, and the
    cells and the characters still to be read are code points. *)
Definition state_ok (s : state) : Prop :=
  valid (machine s) /\
  cells_within 0 1114111 (machine s) /\
  Forall code_point (stdin s).

(** Neither bracket occurs in [program]. *)
Definition bracket_free (program : list ascii) : Prop :=
  Forall (fun c => c <> "["%char /\ c <> "]"%char) program.

(** No bracket of [program] is opened inside another: started at depth [d],
    the nesting depth never exceeds 1. *)
Fixpoint flat (program : list ascii) (d : nat) : bool :=
  match program with
  | [] => true
  | c :: rest =>
      if (c =? "[")%char then
        match d with
        | O => flat rest 1
        | S _ => false
        end
      else if (c =? "]")%char then flat rest (pred d)
      else flat rest d
  end.

(** What the loop of [make_brace_map] knows about the brackets of the whole
    program [full] once it has scanned the first [pos] characters: an entry
    leads from an opening bracket to a later closing one or back, the
    pending positions hold opening brackets, and every closing bracket
    scanned is a key. *)
Definition brace_struct (full : list ascii) (pos : nat) (stack : list nat)
    (bm : gmap nat nat) : Prop :=
  (forall k q, bm !! k = Some q ->
     (full !! k = Some "["%char /\ full !! q = Some "]"%char /\ (k < q)%nat) \/
     (full !! k = Some "]"%char /\ full !! q = Some "["%char /\ (q < k)%nat)) /\
  (forall k, k ∈ stack -> full !! k = Some "["%char) /\
  (forall k, (k < pos)%nat -> full !! k = Some "]"%char -> is_Some (bm !! k)).

(** The state an outcome carries. *)
Definition outcome_state (o : outcome) : state :=
  match o with
  | Finished s | Crashed _ s | OutOfFuel s => s
  end.

(** Why the loop of [interpret] can end with the exception [e] in the state
    [s]: [left] at pointer 0, [ord] of an empty read, or a bracket whose jump
    is taken while the brace map has no entry for it. *)
Definition crash_cause (program : list ascii) (bm : gmap nat nat) (e : exn) (s : state)
    : Prop :=
  (e = ValueError /\ program !! position s = Some "<"%char /\
   Array.ptr (machine s) = 0%nat) \/
  (e = TypeError /\ program !! position s = Some ","%char /\ stdin s = []) \/
  (e = KeyError (position s) /\ bm !! position s = None /\
   ((program !! position s = Some "["%char /\ Array.get_data (machine s) = Ok 0) \/
    (program !! position s = Some "]"%char /\
     exists v, Array.get_data (machine s) = Ok v /\ v <> 0))).

(** Where the character at position [i] of the text [code] ends up in
    [cleanup code]: the number of commands before it. *)
Definition clean_pos (code : list ascii) (i : nat) : nat := length (cleanup (firstn i code)).

(** Two interpreter states that differ at most in the position. *)
Definition same_world (s t : state) : Prop :=
  machine s = machine t /\ stdin s = stdin t /\ stdout s = stdout t /\ log s = log t.

(** The exception [e] of a run on [code], as the run on [cleanup code] has
    it: the key of a [KeyError] is a position, which moves. *)
Definition clean_exn (code : list ascii) (e : exn) : exn :=
  match e with
  | KeyError k => KeyError (clean_pos code k)
  | _ => e
  end.

(** The brace map [bm'] is the brace map [bm] of the text [code] with every
    position moved to where [cleanup] puts it. *)
Definition brace_maps_agree (code : list ascii) (bm bm' : gmap nat nat) : Prop :=
  forall (i : nat) (c : ascii), code !! i = Some c -> c = "["%char \/ c = "]"%char ->
    bm' !! clean_pos code i = clean_pos code <$> (bm !! i).

(** * Properties *)

(** ** The tape *)

Section Tape.

Import Array.

Implicit Types (m : Array.t) (v n : Z).

Lemma get_data_Ok m v : get_data m = Ok v <-> array m !! ptr m = Some v.
Proof.
  unfold get_data. destruct (array m !! ptr m) eqn:E; split; congruence.
Qed.

Lemma get_data_valid m v : get_data m = Ok v -> valid m.
Proof. rewrite get_data_Ok. apply lookup_lt_Some. Qed.

Lemma valid_get_data m : valid m -> exists v, get_data m = Ok v.
Proof.
  intros H. destruct (lookup_lt_is_Some_2 _ _ H) as [v Hv].
  exists v. now apply get_data_Ok.
Qed.

Lemma set_data_valid m n : valid m -> set_data n m = Ok (set_cell n m).
Proof. unfold set_data, valid. intros H. now rewrite decide_True. Qed.

Lemma set_data_invalid m n : ~ valid m -> set_data n m = Raise IndexError.
Proof. unfold set_data, valid. intros H. now rewrite decide_False. Qed.

Lemma valid_set_cell m n : valid m -> valid (set_cell n m).
Proof. unfold valid, set_cell. cbn. now rewrite length_insert. Qed.

Lemma get_data_set_cell m n : valid m -> get_data (set_cell n m) = Ok n.
Proof. intros H. apply get_data_Ok. cbn. now apply list_lookup_insert_eq. Qed.

Lemma set_cell_set_cell m n n' : set_cell n (set_cell n' m) = set_cell n m.
Proof. unfold set_cell. cbn. now rewrite list_insert_insert_eq. Qed.

(** [increment] below the threshold: the cell holds the successor and nothing
    is logged. *)
Lemma increment_small m v :
  get_data m = Ok v -> v + 1 <= 256 -> increment m = Ok (set_cell (v + 1) m, []).
Proof.
  intros Hv Hle. pose proof (get_data_valid _ _ Hv) as Hm.
  unfold increment. rewrite Hv. cbn.
  rewrite (set_data_valid _ _ Hm). cbn.
  rewrite (get_data_set_cell _ _ Hm). cbn.
  destruct (Z.ltb_spec 256 (v + 1)); [lia | reflexivity].
Qed.

(** [increment] above the threshold: the cell is reduced modulo 256 and the
    overflow is logged. *)
Lemma increment_wrap m v :
  get_data m = Ok v -> 256 < v + 1 ->
  increment m = Ok (set_cell ((v + 1) `mod` 256) m, [BufferOverflow (ptr m)]).
Proof.
  intros Hv Hlt. pose proof (get_data_valid _ _ Hv) as Hm.
  unfold increment. rewrite Hv. cbn.
  rewrite (set_data_valid _ _ Hm). cbn.
  rewrite (get_data_set_cell _ _ Hm). cbn.
  destruct (Z.ltb_spec 256 (v + 1)); [| lia].
  rewrite (set_data_valid _ _ (valid_set_cell _ _ Hm)). cbn.
  now rewrite set_cell_set_cell.
Qed.

Lemma decrement_small m v :
  get_data m = Ok v -> 0 <= v - 1 -> decrement m = Ok (set_cell (v - 1) m, []).
Proof.
  intros Hv Hle. pose proof (get_data_valid _ _ Hv) as Hm.
  unfold decrement. rewrite Hv. cbn.
  rewrite (set_data_valid _ _ Hm). cbn.
  rewrite (get_data_set_cell _ _ Hm). cbn.
  destruct (Z.ltb_spec (v - 1) 0); [lia | reflexivity].
Qed.

Lemma decrement_wrap m v :
  get_data m = Ok v -> v - 1 < 0 ->
  decrement m = Ok (set_cell ((v - 1) `mod` 256) m, [BufferUnderflow (ptr m)]).
Proof.
  intros Hv Hlt. pose proof (get_data_valid _ _ Hv) as Hm.
  unfold decrement. rewrite Hv. cbn.
  rewrite (set_data_valid _ _ Hm). cbn.
  rewrite (get_data_set_cell _ _ Hm). cbn.
  destruct (Z.ltb_spec (v - 1) 0); [| lia].
  rewrite (set_data_valid _ _ (valid_set_cell _ _ Hm)). cbn.
  now rewrite set_cell_set_cell.
Qed.

Lemma valid_right m : valid m -> valid (right m).
Proof.
  unfold valid, right. intros H. cbn. case_decide; cbn.
  - rewrite length_app. cbn. lia.
  - lia.
Qed.

Lemma valid_left m m' : valid m -> left m = Ok m' -> valid m'.
Proof.
  unfold valid, left. intros H. case_decide; intros [= <-]. cbn. lia.
Qed.

Lemma valid_fresh L : (0 < L)%nat -> valid (fresh L).
Proof. unfold valid, fresh. cbn. now rewrite length_replicate. Qed.

Lemma size_pos : (2 <= size)%nat.
Proof. unfold size. lia. Qed.

Lemma init_fresh : init = fresh size.
Proof. reflexivity. Qed.

Lemma valid_init : valid init.
Proof. apply valid_fresh. pose proof size_pos. lia. Qed.

End Tape.

(** ** Cell ranges along sequences of operations *)

Section Ranges.

Import Array.

Implicit Types (m : Array.t) (v n lo hi : Z) (ops : list tape_op).

Lemma cells_within_set_cell lo hi m v :
  cells_within lo hi m -> lo <= v <= hi -> cells_within lo hi (set_cell v m).
Proof. unfold cells_within, set_cell. cbn. intros H Hv. now apply Forall_insert. Qed.

Lemma cells_within_get_data lo hi m v :
  cells_within lo hi m -> get_data m = Ok v -> lo <= v <= hi.
Proof.
  unfold cells_within. intros H Hv. apply get_data_Ok in Hv.
  exact (Forall_lookup_1 _ _ _ _ H Hv).
Qed.

Lemma cells_within_right lo hi m :
  lo <= 0 <= hi -> cells_within lo hi m -> cells_within lo hi (right m).
Proof.
  unfold cells_within, right. intros H0 H. cbn. case_decide; cbn; [| assumption].
  apply Forall_app. split; [assumption |]. now repeat constructor.
Qed.

Lemma cells_within_left lo hi m m' :
  cells_within lo hi m -> left m = Ok m' -> cells_within lo hi m'.
Proof. unfold cells_within, left. intros H. now case_decide; intros [= <-]. Qed.

Lemma cells_within_fresh lo hi L : lo <= 0 <= hi -> cells_within lo hi (fresh L).
Proof. unfold cells_within, fresh. cbn. intros H. now apply Forall_replicate. Qed.

(** What [increment] does to the current cell, in both cases at once. *)
Lemma increment_cases m v :
  get_data m = Ok v ->
  exists v' l, increment m = Ok (set_cell v' m, l) /\
    ((v + 1 <= 256 /\ v' = v + 1 /\ l = []) \/
     (256 < v + 1 /\ v' = (v + 1) `mod` 256 /\ l = [BufferOverflow (ptr m)])).
Proof.
  intros Hv. destruct (Z_le_gt_dec (v + 1) 256) as [Hle | Hgt].
  - exists (v + 1), []. split; [now apply increment_small | left; auto].
  - exists ((v + 1) `mod` 256), [BufferOverflow (ptr m)].
    split; [apply increment_wrap; [assumption | lia] | right; repeat split; lia].
Qed.

Lemma decrement_cases m v :
  get_data m = Ok v ->
  exists v' l, decrement m = Ok (set_cell v' m, l) /\
    ((0 <= v - 1 /\ v' = v - 1 /\ l = []) \/
     (v - 1 < 0 /\ v' = (v - 1) `mod` 256 /\ l = [BufferUnderflow (ptr m)])).
Proof.
  intros Hv. destruct (Z_le_gt_dec 0 (v - 1)) as [Hle | Hgt].
  - exists (v - 1), []. split; [now apply decrement_small | left; auto].
  - exists ((v - 1) `mod` 256), [BufferUnderflow (ptr m)].
    split; [apply decrement_wrap; [assumption | lia] | right; repeat split; lia].
Qed.

(** One operation other than [set_data] keeps the cells within 0..256. *)
Lemma apply_op_within_256 o m m' :
  is_write o = false -> valid m -> cells_within 0 256 m ->
  apply_op o m = Ok m' -> valid m' /\ cells_within 0 256 m'.
Proof.
  intros Hw Hm Hc. destruct o as [n | | | |]; cbn; try discriminate.
  - destruct (valid_get_data _ Hm) as [v Hv].
    destruct (increment_cases _ _ Hv) as (v' & l & -> & Hcase). cbn. intros [= <-].
    pose proof (cells_within_get_data _ _ _ _ Hc Hv).
    pose proof (Z.mod_pos_bound (v + 1) 256).
    split; [now apply valid_set_cell | apply cells_within_set_cell; [assumption | lia]].
  - destruct (valid_get_data _ Hm) as [v Hv].
    destruct (decrement_cases _ _ Hv) as (v' & l & -> & Hcase). cbn. intros [= <-].
    pose proof (cells_within_get_data _ _ _ _ Hc Hv).
    pose proof (Z.mod_pos_bound (v - 1) 256).
    split; [now apply valid_set_cell | apply cells_within_set_cell; [assumption | lia]].
  - intros [= <-]. split; [now apply valid_right | apply cells_within_right; [lia | assumption]].
  - intros H. split; [eapply valid_left | eapply cells_within_left]; eassumption.
Qed.

Lemma apply_ops_within_256 ops : forall m m',
  no_write ops = true -> valid m -> cells_within 0 256 m ->
  apply_ops ops m = Ok m' -> valid m' /\ cells_within 0 256 m'.
Proof.
  induction ops as [| o ops IH]; intros m m' Hw Hm Hc; cbn.
  - intros [= <-]. auto.
  - cbn in Hw. apply andb_true_iff in Hw as [Ho Hw]. apply negb_true_iff in Ho.
    destruct (apply_op o m) as [m1 |] eqn:E; cbn; [| discriminate].
    destruct (apply_op_within_256 _ _ _ Ho Hm Hc E) as [Hm1 Hc1].
    now apply IH.
Qed.

(** One byte-preserving operation keeps the cells within 0..255. *)
Lemma apply_op_within_255 o m m' :
  byte_op o m = true -> valid m -> cells_within 0 255 m ->
  apply_op o m = Ok m' -> valid m' /\ cells_within 0 255 m'.
Proof.
  intros Hb Hm Hc. destruct o as [n | | | |]; cbn in *.
  - rewrite (set_data_valid _ _ Hm). intros [= <-].
    apply andb_true_iff in Hb as [H0 H255].
    apply Z.leb_le in H0. apply Z.leb_le in H255.
    split; [now apply valid_set_cell | now apply cells_within_set_cell].
  - destruct (valid_get_data _ Hm) as [v Hv]. rewrite Hv in Hb. apply Z.ltb_lt in Hb.
    pose proof (cells_within_get_data _ _ _ _ Hc Hv).
    rewrite (increment_small _ _ Hv) by lia. cbn. intros [= <-].
    split; [now apply valid_set_cell | apply cells_within_set_cell; [assumption | lia]].
  - destruct (valid_get_data _ Hm) as [v Hv].
    destruct (decrement_cases _ _ Hv) as (v' & l & -> & Hcase). cbn. intros [= <-].
    pose proof (cells_within_get_data _ _ _ _ Hc Hv).
    pose proof (Z.mod_pos_bound (v - 1) 256).
    split; [now apply valid_set_cell | apply cells_within_set_cell; [assumption | lia]].
  - intros [= <-]. split; [now apply valid_right | apply cells_within_right; [lia | assumption]].
  - intros H. split; [eapply valid_left | eapply cells_within_left]; eassumption.
Qed.

Lemma apply_ops_within_255 ops : forall m m',
  byte_ops ops m = true -> valid m -> cells_within 0 255 m ->
  apply_ops ops m = Ok m' -> valid m' /\ cells_within 0 255 m'.
Proof.
  induction ops as [| o ops IH]; intros m m' Hb Hm Hc; cbn.
  - intros [= <-]. auto.
  - cbn in Hb. apply andb_true_iff in Hb as [Ho Hb].
    destruct (apply_op o m) as [m1 |] eqn:E; cbn; [| discriminate].
    destruct (apply_op_within_255 _ _ _ Ho Hm Hc E) as [Hm1 Hc1].
    now apply IH.
Qed.

End Ranges.

(** ** Repeated increments of one cell *)

Section Increments.

Import Array.

Implicit Types (m : Array.t) (v : Z).

Lemma set_cell_id m v : get_data m = Ok v -> set_cell v m = m.
Proof.
  intros Hv. apply get_data_Ok in Hv. destruct m as [a p]. unfold set_cell. cbn in *.
  now rewrite list_insert_id.
Qed.

(** As long as the cell stays at or below 256, [n] increments add [n] and log
    nothing. *)
Lemma increment_n_small (n : nat) : forall m v,
  get_data m = Ok v -> v + Z.of_nat n <= 256 ->
  increment_n n m = Ok (set_cell (v + Z.of_nat n) m, []).
Proof.
  induction n as [| n IH]; intros m v Hv Hle.
  - cbn. rewrite Z.add_0_r. now rewrite (set_cell_id _ _ Hv).
  - cbn [increment_n]. rewrite (IH m v Hv) by lia. cbn.
    pose proof (get_data_valid _ _ Hv) as Hm.
    rewrite (increment_small (set_cell (v + Z.of_nat n) m) (v + Z.of_nat n))
      by (try apply get_data_set_cell; try assumption; lia).
    cbn. rewrite set_cell_set_cell. do 3 f_equal. lia.
Qed.

Lemma get_data_init : get_data init = Ok 0.
Proof. apply get_data_Ok. cbn. apply lookup_replicate_2. pose proof size_pos. lia. Qed.

Lemma get_data_fresh L : (0 < L)%nat -> get_data (fresh L) = Ok 0.
Proof. intros H. apply get_data_Ok. cbn. now apply lookup_replicate_2. Qed.

(** A cell holding 255 is incremented to 256, silently. *)
Lemma increment_at_255 m :
  get_data m = Ok 255 -> increment m = Ok (set_cell 256 m, []).
Proof. intros H. now rewrite (increment_small m 255) by (assumption || lia). Qed.

(** A cell holding 256 is incremented to 257, which is reduced to 1. *)
Lemma increment_at_256 m :
  get_data m = Ok 256 -> increment m = Ok (set_cell 1 m, [BufferOverflow (ptr m)]).
Proof. intros H. now rewrite (increment_wrap m 256) by (assumption || lia). Qed.

Lemma apply_ops_app (ops1 ops2 : list tape_op) : forall m,
  apply_ops (ops1 ++ ops2) m = m' ← apply_ops ops1 m; apply_ops ops2 m'.
Proof.
  induction ops1 as [| o ops1 IH]; intros m; cbn; [reflexivity |].
  destruct (apply_op o m); cbn; [apply IH | reflexivity].
Qed.

(** [increment_n] is [apply_ops] on [n] increments, with the log kept. *)
Lemma apply_ops_increments (n : nat) : forall m m' l,
  increment_n n m = Ok (m', l) -> apply_ops (replicate n Increment) m = Ok m'.
Proof.
  induction n as [| n IH]; intros m m' l; cbn [increment_n].
  - now intros [= <- _].
  - rewrite replicate_S_end, apply_ops_app.
    destruct (increment_n n m) as [[m1 l1] |] eqn:E; cbn; [| discriminate].
    rewrite (IH m m1 l1 E). cbn.
    destruct (increment m1) as [[m2 l2] |] eqn:E2; cbn; [| discriminate].
    now intros [= <- _].
Qed.

(** C1: on the fresh tape, 256 calls of [increment] do not bring the cell
    back to 0: the 255th leaves 255, the 256th stores 256 and logs nothing,
    and the overflow is first logged by the 257th call, which stores 1. *)
Theorem C1_increment_256_times_leaves_256 :
  increment_n 255 init = Ok (set_cell 255 init, []) /\
  increment (set_cell 255 init) = Ok (set_cell 256 init, []) /\
  increment_n 256 init = Ok (set_cell 256 init, []) /\
  get_data (set_cell 256 init) = Ok 256 /\
  increment (set_cell 256 init) = Ok (set_cell 1 init, [BufferOverflow 0]) /\
  increment_n 257 init = Ok (set_cell 1 init, [BufferOverflow 0]).
Proof.
  pose proof valid_init as Hi. pose proof get_data_init as H0.
  assert (H256 : increment_n 256 init = Ok (set_cell 256 init, []))
    by (apply (increment_n_small 256 init 0 H0); lia).
  assert (Hw : increment (set_cell 256 init) = Ok (set_cell 1 init, [BufferOverflow 0])).
  { rewrite increment_at_256 by now apply get_data_set_cell.
    now rewrite set_cell_set_cell. }
  refine (conj _ (conj _ (conj H256 (conj _ (conj Hw _))))).
  - apply (increment_n_small 255 init 0 H0); lia.
  - rewrite increment_at_255 by now apply get_data_set_cell.
    now rewrite set_cell_set_cell.
  - now apply get_data_set_cell.
  - change (increment_n 257 init) with
      ('(m1, l1) ← increment_n 256 init; '(m2, l2) ← increment m1; Ok (m2, l1 ++ l2)).
    rewrite H256. cbn. now rewrite Hw.
Qed.

End Increments.

(** ** Claims about the cell range *)

Section RangeClaims.

Import Array.

(** C10: from a fresh tape, any sequence of [increment], [decrement], [right]
    and [left] that runs without an exception leaves every cell between 0 and
    256 (and the pointer inside the array); a cell holding 255 is incremented
    to exactly 256 with nothing logged, and the next increment takes it from
    256 to 1 and logs the overflow.  [init] is [fresh size]. *)
Theorem C10_cells_between_0_and_256 (L : nat) (ops : list tape_op) (m m255 : Array.t) :
  (0 < L)%nat ->
  no_write ops = true ->
  apply_ops ops (fresh L) = Ok m ->
  get_data m255 = Ok 255 ->
  (valid m /\ cells_within 0 256 m) /\
  increment m255 = Ok (set_cell 256 m255, []) /\
  increment (set_cell 256 m255) = Ok (set_cell 1 m255, [BufferOverflow (ptr m255)]).
Proof.
  intros HL Hw Hops H255. split; [| split].
  - eapply apply_ops_within_256; try eassumption.
    + now apply valid_fresh.
    + apply cells_within_fresh. lia.
  - now apply increment_at_255.
  - pose proof (get_data_valid _ _ H255) as Hm.
    rewrite increment_at_256 by now apply get_data_set_cell.
    now rewrite set_cell_set_cell.
Qed.

Lemma C10_cells_between_0_and_256_witness :
  let ops := [MoveRight; Decrement; MoveLeft; Increment; Increment] in
  let m := {| array := [2; 255]; ptr := 0 |} in
  let m255 := {| array := [2; 255]; ptr := 1 |} in
  (valid m /\ cells_within 0 256 m) /\
  increment m255 = Ok (set_cell 256 m255, []) /\
  increment (set_cell 256 m255) = Ok (set_cell 1 m255, [BufferOverflow 1]).
Proof.
  intros ops m m255.
  apply (C10_cells_between_0_and_256 2 ops m m255); [lia | reflexivity ..].
Defined.

(** The bound 256 of C10 is reached: 256 increments of the fresh tape. *)
Lemma cell_256_reachable :
  apply_ops (replicate 256 Increment) init = Ok (set_cell 256 init) /\
  get_data (set_cell 256 init) = Ok 256.
Proof.
  split.
  - apply (apply_ops_increments 256 init (set_cell 256 init) []).
    apply (increment_n_small 256 init 0 get_data_init). lia.
  - apply get_data_set_cell, valid_init.
Qed.

(** C4, as stated, fails: [set_data] stores its argument as it is.  After
    [set_data(300)] on the fresh tape the current cell holds 300, which is
    neither within 0..255 nor 300 mod 256. *)
Lemma C4_set_data_300_out_of_range :
  apply_ops [Write 300] init = Ok (set_cell 300 init) /\
  get_data (set_cell 300 init) = Ok 300 /\
  300 `mod` 256 = 44 /\
  ~ cells_within 0 255 (set_cell 300 init).
Proof.
  pose proof valid_init as Hi.
  assert (G : get_data (set_cell 300 init) = Ok 300) by now apply get_data_set_cell.
  refine (conj _ (conj G (conj eq_refl _))).
  - cbn [apply_ops apply_op]. now rewrite (set_data_valid _ _ Hi).
  - intros Hc. pose proof (cells_within_get_data _ _ _ _ Hc G). lia.
Qed.

(** C4, amended: from a fresh tape, a sequence of operations in which
    [set_data] is only given bytes and [increment] is only called on cells
    below 255 leaves every cell between 0 and 255.  [set_data n] stores [n]
    itself; on a byte cell [decrement] stores the predecessor modulo 256 and
    [increment], below 255, stores the successor. *)
Theorem C4_cells_between_0_and_255 (L : nat) (ops : list tape_op) (m m0 : Array.t) (n v : Z) :
  (0 < L)%nat ->
  byte_ops ops (fresh L) = true ->
  apply_ops ops (fresh L) = Ok m ->
  get_data m0 = Ok v ->
  0 <= v <= 255 ->
  (valid m /\ cells_within 0 255 m) /\
  (set_data n m0 = Ok (set_cell n m0) /\ get_data (set_cell n m0) = Ok n) /\
  (exists l, decrement m0 = Ok (set_cell ((v - 1) `mod` 256) m0, l)) /\
  (v < 255 -> increment m0 = Ok (set_cell (v + 1) m0, [])).
Proof.
  intros HL Hb Hops Hv Hbyte. pose proof (get_data_valid _ _ Hv) as Hm0.
  refine (conj _ (conj (conj _ _) (conj _ _))).
  - eapply apply_ops_within_255; try eassumption.
    + now apply valid_fresh.
    + apply cells_within_fresh. lia.
  - now apply set_data_valid.
  - now apply get_data_set_cell.
  - destruct (decrement_cases _ _ Hv) as (v' & l & E & [(H0 & -> & _) | (H0 & -> & _)]).
    + exists l. rewrite E. now rewrite Z.mod_small by lia.
    + now exists l.
  - intros Hlt. apply increment_small; [assumption | lia].
Qed.

Lemma C4_cells_between_0_and_255_witness :
  let ops := [Decrement; MoveRight; Write 65; Increment; MoveLeft] in
  let m := {| array := [255; 66]; ptr := 0 |} in
  let m0 := {| array := [0; 7]; ptr := 0 |} in
  (valid m /\ cells_within 0 255 m) /\
  (set_data 200 m0 = Ok (set_cell 200 m0) /\ get_data (set_cell 200 m0) = Ok 200) /\
  (exists l, decrement m0 = Ok (set_cell 255 m0, l)) /\
  (0 < 255 -> increment m0 = Ok (set_cell 1 m0, [])).
Proof.
  intros ops m m0.
  apply (C4_cells_between_0_and_255 2 ops m m0 200 0); [lia | reflexivity .. | lia].
Defined.

End RangeClaims.

(** ** Moving the pointer *)

Section Pointer.

Import Array.

Lemma right_n_S (n : nat) (m : Array.t) : right_n (S n) m = right (right_n n m).
Proof. reflexivity. Qed.

Lemma right_n_fresh (L N : nat) :
  (0 < L)%nat ->
  right_n N (fresh L) = {| array := replicate (L `max` (N + 1)) 0; ptr := N |}.
Proof.
  intros HL. induction N as [| N IH].
  - cbn. unfold fresh. do 2 f_equal. lia.
  - rewrite right_n_S, IH. unfold right. cbn [array ptr].
    rewrite length_replicate. case_decide.
    + replace (L `max` (N + 1))%nat with (S N) by lia.
      replace (L `max` (S N + 1))%nat with (S (S N)) by lia.
      now rewrite <- replicate_S_end.
    + do 2 f_equal. lia.
Qed.

(** C6: [right] never raises (it is a total function on tapes); called [N]
    times on a fresh tape of [L] cells it leaves the pointer at [N] and an
    array of [max L (N+1)] zero cells, and a further call appends exactly
    one zero cell when the pointer is at the last cell ([L <= N + 1]) and
    leaves the array alone otherwise. *)
Theorem C6_right_n_times (L N : nat) :
  (0 < L)%nat ->
  ptr (right_n N (fresh L)) = N /\
  length (array (right_n N (fresh L))) = (L `max` (N + 1))%nat /\
  array (right_n N (fresh L)) = replicate (L `max` (N + 1)) 0 /\
  array (right (right_n N (fresh L))) =
    (if decide (L <= N + 1)%nat
     then array (right_n N (fresh L)) ++ [0]
     else array (right_n N (fresh L))).
Proof.
  intros HL. rewrite (right_n_fresh L N HL). cbn [array ptr].
  rewrite length_replicate. repeat split.
  unfold right. cbn [array ptr]. rewrite length_replicate.
  repeat case_decide; try reflexivity; lia.
Qed.

Lemma C6_right_n_times_witness :
  ptr (right_n 5 (fresh 3)) = 5%nat /\
  length (array (right_n 5 (fresh 3))) = 6%nat /\
  array (right_n 5 (fresh 3)) = replicate 6 0 /\
  array (right (right_n 5 (fresh 3))) = array (right_n 5 (fresh 3)) ++ [0].
Proof. apply (C6_right_n_times 3 5). lia. Defined.

(** C7: [left] with the pointer at 0 raises [ValueError]; with a pointer above
    0 it returns normally with the pointer one lower and the array
    untouched. *)
Theorem C7_left (m : Array.t) :
  (ptr m = 0%nat -> left m = Raise ValueError) /\
  ((0 < ptr m)%nat -> left m = Ok {| array := array m; ptr := ptr m - 1 |}).
Proof.
  unfold left. split; intros H.
  - rewrite decide_False by lia. reflexivity.
  - rewrite decide_True by lia. reflexivity.
Qed.

Lemma C7_left_witness :
  left {| array := [0; 0; 0]; ptr := 0 |} = Raise ValueError /\
  left {| array := [0; 0; 0]; ptr := 2 |} = Ok {| array := [0; 0; 0]; ptr := 1 |}.
Proof.
  split.
  - apply (C7_left {| array := [0; 0; 0]; ptr := 0 |}). reflexivity.
  - apply (C7_left {| array := [0; 0; 0]; ptr := 2 |}). cbn. lia.
Defined.

End Pointer.

(** ** The brace map *)

Section BraceMap.

Implicit Types (program : list ascii) (pos : nat) (stack : list nat)
  (bm : gmap nat nat).

Lemma brace_inv_init : brace_inv 0 [] ∅.
Proof.
  split; [| split; [| split]].
  - intros k q H. now rewrite lookup_empty in H.
  - intros k [q H]. now rewrite lookup_empty in H.
  - intros k H. now apply elem_of_nil in H.
  - constructor.
Qed.

Lemma brace_inv_skip pos stack bm :
  brace_inv pos stack bm -> brace_inv (S pos) stack bm.
Proof.
  intros (Hinv & Hkeys & Hst & Hnd). split; [| split; [| split]]; try assumption.
  - intros k Hk. specialize (Hkeys k Hk). lia.
  - intros k H. destruct (Hst k H). split; [lia | assumption].
Qed.

Lemma brace_inv_push pos stack bm :
  brace_inv pos stack bm -> brace_inv (S pos) (stack ++ [pos]) bm.
Proof.
  intros (Hinv & Hkeys & Hst & Hnd).
  assert (Hfresh : bm !! pos = None).
  { destruct (bm !! pos) eqn:E; [| reflexivity].
    assert (pos < pos)%nat by (apply Hkeys; eauto). lia. }
  split; [| split; [| split]]; try assumption.
  - intros k Hk. specialize (Hkeys k Hk). lia.
  - intros k H. apply elem_of_app in H as [H | H].
    + destruct (Hst k H). split; [lia | assumption].
    + apply list_elem_of_singleton in H. subst. split; [lia | assumption].
  - apply NoDup_app. split; [assumption | split; [| apply NoDup_singleton]].
    intros k Hk Hk'. apply list_elem_of_singleton in Hk'. subst.
    destruct (Hst pos Hk). lia.
Qed.

Lemma brace_inv_pop pos start stack bm :
  brace_inv pos (start :: stack) bm ->
  brace_inv (S pos) stack (<[pos := start]> (<[start := pos]> bm)).
Proof.
  intros (Hinv & Hkeys & Hst & Hnd).
  destruct (Hst start) as [Hlt Hnone]; [left |].
  apply NoDup_cons in Hnd as [Hnotin Hnd].
  assert (Hne : pos ≠ start) by lia.
  split; [| split; [| split]]; try assumption.
  - intros k q Hk.
    destruct (decide (k = pos)) as [-> | Hkp].
    { rewrite lookup_insert_eq in Hk. injection Hk as <-.
      rewrite lookup_insert_ne by lia. apply lookup_insert_eq. }
    rewrite lookup_insert_ne in Hk by lia.
    destruct (decide (k = start)) as [-> | Hks].
    { rewrite lookup_insert_eq in Hk. injection Hk as <-. apply lookup_insert_eq. }
    rewrite lookup_insert_ne in Hk by lia.
    pose proof (Hinv _ _ Hk) as Hq.
    assert (q < pos)%nat by (apply Hkeys; eauto).
    assert (q ≠ start) by congruence.
    rewrite !lookup_insert_ne by lia. exact Hq.
  - intros k Hk.
    destruct (decide (k = pos)) as [-> | Hkp]; [lia |].
    destruct (decide (k = start)) as [-> | Hks]; [lia |].
    rewrite !lookup_insert_ne in Hk by lia. specialize (Hkeys k Hk). lia.
  - intros k H. destruct (Hst k) as [Hk Hkn]; [now right |]. split; [lia |].
    assert (k ≠ start) by (intros ->; contradiction).
    rewrite !lookup_insert_ne by lia. exact Hkn.
Qed.

Lemma brace_loop_inv program : forall pos stack bm bm',
  brace_inv pos stack bm ->
  brace_loop program pos stack bm = Ok bm' ->
  exists pos' stack', brace_inv pos' stack' bm'.
Proof.
  induction program as [| c rest IH]; intros pos stack bm bm' Hinv; cbn.
  - intros [= <-]. eauto.
  - destruct (Ascii.eqb_spec c "["%char) as [-> | Hopen]; cbn.
    + apply IH. now apply brace_inv_push.
    + destruct (Ascii.eqb_spec c "]"%char) as [-> | Hclose].
      * destruct stack as [| start stack]; [discriminate |].
        apply IH. now apply brace_inv_pop.
      * apply IH. now apply brace_inv_skip.
Qed.

(** C8: whenever [make_brace_map] returns a map, the map is an involution on
    its keys: if [k] is a key with value [q] then [q] is a key with value
    [k], that is, [brace_map[brace_map[k]] == k]. *)
Theorem C8_brace_map_involution program bm (k q : nat) :
  make_brace_map program = Ok bm ->
  bm !! k = Some q ->
  bm !! q = Some k /\ (bm !! k ≫= fun q => bm !! q) = Some k.
Proof.
  intros Hbm Hk.
  destruct (brace_loop_inv _ _ _ _ _ brace_inv_init Hbm) as (pos & stack & Hinv & _).
  pose proof (Hinv _ _ Hk) as Hq. split; [assumption |].
  rewrite Hk. exact Hq.
Qed.

Lemma brace_map_nested :
  make_brace_map (prog "[[]]") =
  Ok (<[3%nat := 1%nat]> (<[1%nat := 3%nat]> (<[2%nat := 0%nat]> (<[0%nat := 2%nat]> ∅)))).
Proof. reflexivity. Qed.

Lemma C8_brace_map_involution_witness :
  let bm : gmap nat nat :=
    <[3%nat := 1%nat]> (<[1%nat := 3%nat]> (<[2%nat := 0%nat]> (<[0%nat := 2%nat]> ∅))) in
  bm !! 2%nat = Some 0%nat /\ (bm !! 0%nat ≫= fun q => bm !! q) = Some 0%nat.
Proof.
  intros bm. apply (C8_brace_map_involution (prog "[[]]") bm 0 2); reflexivity.
Defined.

(** On a balanced program every bracket position ends up as a key. *)
Lemma brace_loop_total program : forall pos stack bm bm',
  brace_loop program pos stack bm = Ok bm' ->
  depth_scan program (length stack) = Some 0%nat ->
  (forall k, is_Some (bm !! k) -> is_Some (bm' !! k)) /\
  (forall k, k ∈ stack -> is_Some (bm' !! k)) /\
  (forall i c, program !! i = Some c -> c = "["%char \/ c = "]"%char ->
     is_Some (bm' !! (pos + i)%nat)).
Proof.
  induction program as [| c rest IH]; intros pos stack bm bm'; cbn.
  - intros [= <-] [= Hlen]. destruct stack; [| discriminate].
    split; [auto |]. split; [intros k H; now apply elem_of_nil in H |].
    intros i c H. now rewrite lookup_nil in H.
  - destruct (Ascii.eqb_spec c "["%char) as [-> | Hopen]; cbn.
    + intros Hloop Hdepth.
      destruct (IH (S pos) (stack ++ [pos]) bm bm' Hloop) as (Hk & Hs & Hb).
      { rewrite length_app. cbn. now rewrite Nat.add_1_r. }
      split; [assumption |]. split.
      * intros k H. apply Hs, elem_of_app. now left.
      * intros [| i] c Hc Hbr; cbn in Hc.
        -- rewrite Nat.add_0_r. apply Hs, elem_of_app. right. now left.
        -- rewrite Nat.add_succ_r. now apply (Hb i c).
    + destruct (Ascii.eqb_spec c "]"%char) as [-> | Hclose].
      * destruct stack as [| start stack]; [discriminate |]. cbn.
        intros Hloop Hdepth.
        destruct (IH (S pos) stack _ bm' Hloop Hdepth) as (Hk & Hs & Hb).
        split; [| split].
        -- intros k Hq. apply Hk. rewrite !lookup_insert_is_Some'. auto.
        -- intros k H. apply elem_of_cons in H as [-> | H]; [| now apply Hs].
           apply Hk. rewrite !lookup_insert_is_Some'. auto.
        -- intros [| i] c Hc Hbr; cbn in Hc.
           ++ rewrite Nat.add_0_r. apply Hk. rewrite lookup_insert_is_Some'. auto.
           ++ rewrite Nat.add_succ_r. now apply (Hb i c).
      * intros Hloop Hdepth.
        destruct (IH (S pos) stack bm bm' Hloop Hdepth) as (Hk & Hs & Hb).
        split; [assumption |]. split; [assumption |].
        intros [| i] c' Hc Hbr; cbn in Hc.
        -- injection Hc as ->. now destruct Hbr.
        -- rewrite Nat.add_succ_r. now apply (Hb i c').
Qed.

(** The brace map of a balanced program is well formed: [brace_map[p]] is
    defined at every bracket position [p]. *)
Lemma make_brace_map_total program bm (p : nat) (c : ascii) :
  make_brace_map program = Ok bm -> balanced program ->
  program !! p = Some c -> c = "["%char \/ c = "]"%char ->
  exists q, bm !! p = Some q.
Proof.
  intros Hbm Hbal Hc Hbr.
  destruct (brace_loop_total _ _ _ _ _ Hbm Hbal) as (_ & _ & Hb).
  exact (Hb p c Hc Hbr).
Qed.

End BraceMap.

(** C2: on the balanced program [[[]]] the map of [make_brace_map] pairs the
    outer opening bracket (position 0) with the first closing bracket
    (position 2) and the inner one (position 1) with the last (position 3):
    [popleft] takes the oldest pending bracket.  The nested pairing, which the
    specification's last-in-first-out table has, is 0 with 3 and 1 with 2. *)
Theorem C2_nested_brackets_paired_first_in_first_out :
  balanced (prog "[[]]") /\
  (exists bm, make_brace_map (prog "[[]]") = Ok bm /\
     bm !! 0%nat = Some 2%nat /\ bm !! 2%nat = Some 0%nat /\
     bm !! 1%nat = Some 3%nat /\ bm !! 3%nat = Some 1%nat) /\
  (exists table, build_jump_table_spec (prog "[[]]") = Some table /\
     table !! 0%nat = Some 3%nat /\ table !! 3%nat = Some 0%nat /\
     table !! 1%nat = Some 2%nat /\ table !! 2%nat = Some 1%nat).
Proof.
  split; [reflexivity |]. split.
  - eexists. split; [apply brace_map_nested |]. repeat split.
  - eexists. split; [reflexivity |]. repeat split.
Qed.

(** Without nesting the two pairings agree, for instance on [[][]]. *)
Lemma brace_map_flat :
  make_brace_map (prog "[][]") =
  Ok (<[3%nat := 2%nat]> (<[2%nat := 3%nat]> (<[1%nat := 0%nat]> (<[0%nat := 1%nat]> ∅)))) /\
  build_jump_table_spec (prog "[][]") =
  Some (<[3%nat := 2%nat]> (<[2%nat := 3%nat]> (<[1%nat := 0%nat]> (<[0%nat := 1%nat]> ∅)))).
Proof. split; reflexivity. Qed.

(** ** Unmatched brackets *)

Section Unmatched.

Implicit Types (program : list ascii) (pos : nat) (stack : list nat)
  (bm : gmap nat nat).

(** The deque of [make_brace_map] is as long as the nesting is deep, so the
    scan raises exactly when a closing bracket occurs at depth 0. *)
Lemma brace_loop_depth program : forall pos stack bm,
  match depth_scan program (length stack) with
  | None => brace_loop program pos stack bm = Raise IndexError
  | Some d => exists bm', brace_loop program pos stack bm = Ok bm'
  end.
Proof.
  induction program as [| c rest IH]; intros pos stack bm; cbn.
  - eauto.
  - destruct (Ascii.eqb_spec c "["%char) as [-> | Hopen]; cbn.
    + specialize (IH (S pos) (stack ++ [pos]) bm).
      rewrite length_app in IH. cbn in IH.
      now replace (length stack + 1)%nat with (S (length stack)) in IH by lia.
    + destruct (Ascii.eqb_spec c "]"%char) as [-> | Hclose].
      * destruct stack as [| start stack]; cbn; [reflexivity | apply IH].
      * apply IH.
Qed.

Lemma make_brace_map_unmatched_close program :
  unmatched_close program -> make_brace_map program = Raise IndexError.
Proof.
  unfold unmatched_close, make_brace_map. intros H.
  pose proof (brace_loop_depth program 0 [] ∅) as G. cbn in G. now rewrite H in G.
Qed.

(** An unmatched opening bracket goes unnoticed by [make_brace_map]: as long
    as no closing bracket is unmatched, a map is returned. *)
Lemma make_brace_map_unmatched_open program (d : nat) :
  depth_scan program 0 = Some d -> exists bm, make_brace_map program = Ok bm.
Proof.
  unfold make_brace_map. intros H.
  pose proof (brace_loop_depth program 0 [] ∅) as G. cbn in G. now rewrite H in G.
Qed.

(** C3, amended: when the program has an unmatched closing bracket,
    [make_brace_map] raises [IndexError], and [interpret] ends with that
    exception in its initial state: no instruction has run, the tape is the
    fresh tape, nothing was read, written or logged. *)
Theorem C3_unmatched_close_raises_before_execution program (fuel : nat) (input : list Z) :
  unmatched_close program ->
  make_brace_map program = Raise IndexError /\
  interpret fuel program input = Crashed IndexError (initial input) /\
  machine (initial input) = Array.init /\
  position (initial input) = 0%nat /\
  stdin (initial input) = input /\
  stdout (initial input) = [] /\
  log (initial input) = [].
Proof.
  intros H. pose proof (make_brace_map_unmatched_close _ H) as E.
  split; [assumption |]. split; [| now repeat split].
  unfold interpret. now rewrite E.
Qed.

Lemma C3_unmatched_close_raises_before_execution_witness :
  make_brace_map (prog "+]+") = Raise IndexError /\
  interpret 10 (prog "+]+") [65] = Crashed IndexError (initial [65]) /\
  machine (initial [65]) = Array.init /\
  position (initial [65]) = 0%nat /\
  stdin (initial [65]) = [65] /\
  stdout (initial [65]) = [] /\
  log (initial [65]) = [].
Proof.
  apply (C3_unmatched_close_raises_before_execution (prog "+]+") 10 [65]).
  reflexivity.
Defined.

End Unmatched.

(** ** Runs of the interpreter *)

Section Runs.

Import Array.

(** The first two cells of the fresh tape, written out. *)
Lemma init_unfold :
  init = {| array := 0 :: 0 :: replicate (size - 2) 0; ptr := 0 |}.
Proof.
  assert (E : size = S (S (size - 2))) by (pose proof size_pos; lia).
  unfold init. rewrite E at 1. reflexivity.
Qed.

(** More fuel does not change a run that has ended. *)
Lemma run_more_fuel program bm (fuel : nat) : forall s (k : nat),
  (forall s', run fuel program bm s <> OutOfFuel s') ->
  run (fuel + k) program bm s = run fuel program bm s.
Proof.
  induction fuel as [| fuel IH]; intros s k Hend; cbn [run Nat.add] in *.
  - case_decide; [| destruct k; cbn; now rewrite decide_False].
    now destruct (Hend s).
  - case_decide; [| reflexivity].
    destruct (step program bm s) as [s' | e]; [| reflexivity].
    now apply IH.
Qed.

(** C3, as stated, fails for an unmatched opening bracket.  On [+>[] the
    bracket at position 2 is unmatched, yet [make_brace_map] returns the empty
    map, the first two instructions run (cell 0 becomes 1, the pointer moves
    to 1), and the run then ends with [KeyError] raised by the lookup at the
    bracket. *)
Lemma C3_unmatched_open_crashes_mid_run :
  unmatched_open (prog "+>[") /\
  make_brace_map (prog "+>[") = Ok ∅ /\
  forall fuel input,
    interpret (3 + fuel) (prog "+>[") input =
    Crashed (KeyError 2)
      {| machine := {| array := <[0%nat := 1]> (array init); ptr := 1 |};
         position := 2; stdin := input; stdout := []; log := [] |}.
Proof.
  split; [now exists 0%nat |]. split; [reflexivity |].
  intros fuel input. unfold interpret, initial.
  change (make_brace_map (prog "+>[")) with (Ok (∅ : gmap nat nat)).
  rewrite init_unfold. cbn [array]. generalize (replicate (size - 2) 0). intros rest.
  reflexivity.
Qed.

(** On [+[] the unmatched bracket is never noticed at all: the cell is not 0
    when the bracket is reached, and the run ends normally. *)
Lemma unmatched_open_unnoticed :
  unmatched_open (prog "+[") /\
  forall fuel input,
    interpret (2 + fuel) (prog "+[") input =
    Finished
      {| machine := {| array := <[0%nat := 1]> (array init); ptr := 0 |};
         position := 2; stdin := input; stdout := []; log := [] |}.
Proof.
  split; [now exists 0%nat |].
  intros fuel input. unfold interpret, initial.
  change (make_brace_map (prog "+[")) with (Ok (∅ : gmap nat nat)).
  rewrite init_unfold. cbn [array]. generalize (replicate (size - 2) 0). intros rest.
  destruct fuel; reflexivity.
Qed.

(** C5: at an opening bracket with the current cell 0, or at a closing
    bracket with the current cell not 0, when the brace map has the entry
    [partner] for the position, the loop iteration ends in a state whose
    position is [partner + 1] (the position is set to [partner], then 1 is
    added) and whose tape, input, output and log are those it started with.
    The run goes on from that state: the instruction executed next is the
    one at position [partner + 1], and when there is none the run ends
    normally. *)
Theorem C5_jump_resumes_after_partner (program : list ascii) (bm : gmap nat nat)
    (s : state) (c : ascii) (v : Z) (partner fuel : nat) :
  program !! position s = Some c ->
  get_data (machine s) = Ok v ->
  bm !! position s = Some partner ->
  (c = "["%char /\ v = 0) \/ (c = "]"%char /\ v <> 0) ->
  exists s',
    step program bm s = Ok s' /\
    position s' = S partner /\
    machine s' = machine s /\
    stdin s' = stdin s /\ stdout s' = stdout s /\ log s' = log s /\
    run (S fuel) program bm s = run fuel program bm s' /\
    trace (S fuel) program bm s = position s :: trace fuel program bm s' /\
    ((S partner < length program)%nat ->
       exists tr, trace (S (S fuel)) program bm s = position s :: S partner :: tr) /\
    ((length program <= S partner)%nat -> run (S fuel) program bm s = Finished s').
Proof.
  intros Hc Hv Hbm Hcase.
  set (s' := {| machine := machine s; position := S partner; stdin := stdin s;
                stdout := stdout s; log := log s |}).
  assert (Hstep : step program bm s = Ok s').
  { unfold step. rewrite Hc. unfold dispatch, brace_lookup.
    destruct Hcase as [[-> ->] | [-> Hnz]]; cbn; rewrite Hv; cbn.
    - now rewrite Hbm.
    - destruct (Z.eqb_spec v 0); [contradiction |]. cbn. now rewrite Hbm. }
  pose proof (lookup_lt_Some _ _ _ Hc) as Hlt.
  assert (Hrun : run (S fuel) program bm s = run fuel program bm s').
  { cbn [run]. destruct (decide (position s < length program)%nat); [| contradiction].
    now rewrite Hstep. }
  assert (Htrace : forall n : nat,
            trace (S n) program bm s = position s :: trace n program bm s').
  { intros n. cbn [trace].
    destruct (decide (position s < length program)%nat); [| contradiction].
    now rewrite Hstep. }
  exists s'. split; [exact Hstep |].
  split; [reflexivity |]. split; [reflexivity |]. split; [reflexivity |].
  split; [reflexivity |]. split; [reflexivity |].
  split; [exact Hrun |]. split; [apply Htrace |]. split.
  - intros Hnext. rewrite (Htrace (S fuel)). cbn [trace].
    destruct (decide (position s' < length program)%nat) as [_ | Hn];
      [| now destruct Hn].
    eexists. reflexivity.
  - intros Hend. rewrite Hrun. destruct fuel; cbn [run];
      (destruct (decide (position s' < length program)%nat) as [Hn | _];
       [cbn in Hn; lia | reflexivity]).
Qed.

Lemma C5_jump_resumes_after_partner_witness :
  let program := prog "[-]+" in
  let bm : gmap nat nat := <[2%nat := 0%nat]> (<[0%nat := 2%nat]> ∅) in
  let at_open := {| machine := {| array := [0; 7]; ptr := 0 |}; position := 0;
                    stdin := [65]; stdout := [66]; log := [] |} in
  let at_close := {| machine := {| array := [3; 7]; ptr := 0 |}; position := 2;
                     stdin := [65]; stdout := [66]; log := [] |} in
  (exists s',
     step program bm at_open = Ok s' /\
     position s' = 3%nat /\
     machine s' = machine at_open /\
     stdin s' = stdin at_open /\ stdout s' = stdout at_open /\ log s' = log at_open /\
     run 5 program bm at_open = run 4 program bm s' /\
     trace 5 program bm at_open = 0%nat :: trace 4 program bm s' /\
     ((3 < length program)%nat ->
        exists tr, trace 6 program bm at_open = 0%nat :: 3%nat :: tr) /\
     ((length program <= 3)%nat -> run 5 program bm at_open = Finished s')) /\
  (exists s',
     step program bm at_close = Ok s' /\
     position s' = 1%nat /\
     machine s' = machine at_close /\
     stdin s' = stdin at_close /\ stdout s' = stdout at_close /\ log s' = log at_close /\
     run 5 program bm at_close = run 4 program bm s' /\
     trace 5 program bm at_close = 2%nat :: trace 4 program bm s' /\
     ((1 < length program)%nat ->
        exists tr, trace 6 program bm at_close = 2%nat :: 1%nat :: tr) /\
     ((length program <= 1)%nat -> run 5 program bm at_close = Finished s')).
Proof.
  intros program bm at_open at_close. split.
  - apply (C5_jump_resumes_after_partner program bm at_open "["%char 0 2 4);
      [reflexivity | reflexivity | reflexivity | left; split; reflexivity].
  - apply (C5_jump_resumes_after_partner program bm at_close "]"%char 3 0 4);
      [reflexivity | reflexivity | reflexivity | right; split; [reflexivity | lia]].
Defined.

(** A closing bracket jumps back the same way, here from position 2 to
    position 1, past the opening bracket at 0. *)
Lemma jump_back_example :
  let program := prog "[-]+" in
  let bm : gmap nat nat := <[2%nat := 0%nat]> (<[0%nat := 2%nat]> ∅) in
  let s := {| machine := {| array := [3; 0]; ptr := 0 |}; position := 2;
              stdin := []; stdout := []; log := [] |} in
  step program bm s = Ok (with_position s 1) /\
  trace 3 program bm s = [2; 1; 2]%nat.
Proof. split; reflexivity. Qed.

Lemma brace_map_transfer :
  make_brace_map (prog "+[>+<-]") = Ok (<[6%nat := 1%nat]> (<[1%nat := 6%nat]> ∅)).
Proof. reflexivity. Qed.

(** C9: the run of [+[>+<-]] ends normally, for every input and every bound
    of at least 7 iterations.  The loop is entered with the tested cell at 1
    (after one iteration of the interpreter, at position 1); the seven
    instructions run once each, so the loop body is entered exactly once;
    at the end the tested cell holds 0, the cell to its right holds 1, and
    nothing was read, written or logged. *)
Theorem C9_transfer_loop_terminates (fuel : nat) (input : list Z) :
  let program := prog "+[>+<-]" in
  let bm : gmap nat nat := <[6%nat := 1%nat]> (<[1%nat := 6%nat]> ∅) in
  let entry :=
    {| machine := {| array := <[0%nat := 1]> (array init); ptr := 0 |};
       position := 1; stdin := input; stdout := []; log := [] |} in
  let final :=
    {| machine := {| array := <[1%nat := 1]> (array init); ptr := 0 |};
       position := 7; stdin := input; stdout := []; log := [] |} in
  make_brace_map program = Ok bm /\
  run 1 program bm (initial input) = OutOfFuel entry /\
  get_data (machine entry) = Ok 1 /\
  interpret (7 + fuel) program input = Finished final /\
  get_data (machine final) = Ok 0 /\
  trace (7 + fuel) program bm (initial input) = [0; 1; 2; 3; 4; 5; 6]%nat /\
  loop_iterations 1 (trace (7 + fuel) program bm (initial input)) = 1%nat.
Proof.
  intros program bm entry final. subst program bm entry final.
  unfold interpret. rewrite brace_map_transfer. unfold initial.
  rewrite init_unfold. cbn [array]. generalize (replicate (size - 2) 0). intros rest.
  assert (T : trace (7 + fuel) (prog "+[>+<-]") (<[6%nat := 1%nat]> (<[1%nat := 6%nat]> ∅))
                {| machine := {| array := 0 :: 0 :: rest; ptr := 0 |}; position := 0;
                   stdin := input; stdout := []; log := [] |} = [0; 1; 2; 3; 4; 5; 6]%nat)
    by (destruct fuel; reflexivity).
  rewrite T.
  repeat split; destruct fuel; reflexivity.
Qed.

(** *** One loop iteration, instruction by instruction *)

Lemma step_char program bm s (c : ascii) s' :
  program !! position s = Some c ->
  dispatch bm c s = Ok s' ->
  step program bm s = Ok (with_position s' (S (position s'))).
Proof. unfold step. intros -> ->. reflexivity. Qed.

Lemma dispatch_right bm s :
  dispatch bm ">" s = Ok (with_machine s (right (machine s)) []).
Proof. reflexivity. Qed.

Lemma dispatch_left bm s m' :
  left (machine s) = Ok m' -> dispatch bm "<" s = Ok (with_machine s m' []).
Proof. unfold dispatch. cbn. now intros ->. Qed.

Lemma dispatch_increment bm s m' l :
  increment (machine s) = Ok (m', l) -> dispatch bm "+" s = Ok (with_machine s m' l).
Proof. unfold dispatch. cbn. now intros ->. Qed.

Lemma dispatch_decrement bm s m' l :
  decrement (machine s) = Ok (m', l) -> dispatch bm "-" s = Ok (with_machine s m' l).
Proof. unfold dispatch. cbn. now intros ->. Qed.

Lemma dispatch_open_taken bm s (q : nat) :
  get_data (machine s) = Ok 0 -> bm !! position s = Some q ->
  dispatch bm "[" s = Ok (with_position s q).
Proof. unfold dispatch, brace_lookup. cbn. now intros -> ->. Qed.

Lemma dispatch_open_skipped bm s v :
  get_data (machine s) = Ok v -> v <> 0 -> dispatch bm "[" s = Ok s.
Proof.
  unfold dispatch. cbn. intros -> Hv. cbn. now destruct (Z.eqb_spec v 0).
Qed.

Lemma dispatch_close_taken bm s v (q : nat) :
  get_data (machine s) = Ok v -> v <> 0 -> bm !! position s = Some q ->
  dispatch bm "]" s = Ok (with_position s q).
Proof.
  unfold dispatch, brace_lookup. cbn. intros -> Hv ->. cbn.
  now destruct (Z.eqb_spec v 0).
Qed.

Lemma dispatch_close_skipped bm s :
  get_data (machine s) = Ok 0 -> dispatch bm "]" s = Ok s.
Proof. unfold dispatch. cbn. now intros ->. Qed.

(** X18: when [<] is reached with the pointer at 0, the run ends with
    [ValueError], in the state the instruction started from. *)
Lemma left_at_0_stops_run program bm s (fuel : nat) :
  program !! position s = Some "<"%char -> ptr (machine s) = 0%nat ->
  run (S fuel) program bm s = Crashed ValueError s.
Proof.
  intros Hc Hp. pose proof (lookup_lt_Some _ _ _ Hc) as Hlt. cbn [run].
  destruct (decide (position s < length program)%nat); [| contradiction].
  unfold step. rewrite Hc. unfold dispatch. cbn. unfold left.
  rewrite decide_False by lia. reflexivity.
Qed.

Lemma run_step program bm s s' (n : nat) :
  step program bm s = Ok s' ->
  run (S n) program bm s = run n program bm s' /\
  trace (S n) program bm s = position s :: trace n program bm s'.
Proof.
  intros Hstep. assert (Hlt : (position s < length program)%nat).
  { unfold step in Hstep. destruct (program !! position s) eqn:E; [| discriminate].
    exact (lookup_lt_Some _ _ _ E). }
  cbn [run trace]. destruct (decide (position s < length program)%nat); [| contradiction].
  now rewrite Hstep.
Qed.

(** A run that reaches [s'] when its fuel runs out goes on from [s']. *)
Lemma run_trace_app program bm (a : nat) : forall s s' (b : nat),
  run a program bm s = OutOfFuel s' ->
  run (a + b) program bm s = run b program bm s' /\
  trace (a + b) program bm s = trace a program bm s ++ trace b program bm s'.
Proof.
  induction a as [| a IH]; intros s s' b; cbn [run trace Nat.add].
  - destruct (decide (position s < length program)%nat); [| discriminate].
    now intros [= <-].
  - destruct (decide (position s < length program)%nat) as [Hlt | Hge]; [| discriminate].
    destruct (step program bm s) as [s1 | e] eqn:Hstep; [| discriminate].
    intros Hrun. destruct (IH s1 s' b Hrun) as [Hr Ht].
    rewrite Hr, Ht. split; reflexivity.
Qed.

Lemma loop_iterations_app (open : nat) (tr1 tr2 : list nat) :
  loop_iterations open (tr1 ++ tr2) =
  (loop_iterations open tr1 + loop_iterations open tr2)%nat.
Proof. unfold loop_iterations. now rewrite filter_app, length_app. Qed.

(** *** The loop of [+[>+<-]] for any value of the tested cell *)

Local Abbreviation P := (prog "+[>+<-]").
Local Abbreviation BM := (<[6%nat := 1%nat]> (<[1%nat := 6%nat]> (∅ : gmap nat nat))).

(** One pass through the loop body, from position 2 to the closing bracket:
    the tested cell [c] goes down by one, the cell to its right is
    incremented, and the run is back at position 2 unless the tested cell
    has reached 0, in which case it has left the program. *)
Lemma transfer_body (c b : Z) (rest input out : list Z) (lg : list log_record) :
  1 <= c ->
  exists b' lg',
    let s' := two_cells (if c - 1 =? 0 then 7 else 2) (c - 1) b' rest 0 input out lg' in
    run 5 P BM (two_cells 2 c b rest 0 input out lg) =
      (if c - 1 =? 0 then Finished s' else OutOfFuel s') /\
    trace 5 P BM (two_cells 2 c b rest 0 input out lg) = [2; 3; 4; 5; 6]%nat.
Proof.
  intros Hc.
  destruct (increment_cases {| array := c :: b :: rest; ptr := 1 |} b eq_refl)
    as (b' & l & Hinc & _).
  exists b', ((((lg ++ []) ++ l) ++ []) ++ []).
  set (s1 := two_cells 3 c b rest 1 input out (lg ++ [])).
  set (s2 := two_cells 4 c b' rest 1 input out ((lg ++ []) ++ l)).
  set (s3 := two_cells 5 c b' rest 0 input out (((lg ++ []) ++ l) ++ [])).
  set (s4 := two_cells 6 (c - 1) b' rest 0 input out ((((lg ++ []) ++ l) ++ []) ++ [])).
  assert (E1 : step P BM (two_cells 2 c b rest 0 input out lg) = Ok s1) by reflexivity.
  assert (E2 : step P BM s1 = Ok s2)
    by exact (step_char P BM s1 "+" _ eq_refl (dispatch_increment BM s1 _ _ Hinc)).
  assert (E3 : step P BM s2 = Ok s3) by reflexivity.
  assert (E4 : step P BM s3 = Ok s4).
  { assert (Hdec : decrement (machine s3) = Ok (set_cell (c - 1) (machine s3), []))
      by (apply decrement_small; [reflexivity | lia]).
    exact (step_char P BM s3 "-" _ eq_refl (dispatch_decrement BM s3 _ _ Hdec)). }
  destruct (run_step P BM _ _ 4 E1) as [R1 T1]. destruct (run_step P BM _ _ 3 E2) as [R2 T2].
  destruct (run_step P BM _ _ 2 E3) as [R3 T3]. destruct (run_step P BM _ _ 1 E4) as [R4 T4].
  destruct (Z.eqb_spec (c - 1) 0) as [Hz | Hnz].
  - assert (E5 : step P BM s4 = Ok (two_cells 7 (c - 1) b' rest 0 input out
                                     ((((lg ++ []) ++ l) ++ []) ++ []))).
    { assert (Hget : get_data (machine s4) = Ok 0) by (cbn; now rewrite Hz).
      exact (step_char P BM s4 "]" _ eq_refl (dispatch_close_skipped BM s4 Hget)). }
    destruct (run_step P BM _ _ 0 E5) as [R5 T5].
    cbv zeta. rewrite R1, R2, R3, R4, R5, T1, T2, T3, T4, T5. split; reflexivity.
  - assert (E5 : step P BM s4 = Ok (two_cells 2 (c - 1) b' rest 0 input out
                                     ((((lg ++ []) ++ l) ++ []) ++ []))).
    { assert (Hget : get_data (machine s4) = Ok (c - 1)) by reflexivity.
      exact (step_char P BM s4 "]" _ eq_refl
               (dispatch_close_taken BM s4 (c - 1) 1 Hget Hnz eq_refl)). }
    destruct (run_step P BM _ _ 0 E5) as [R5 T5].
    cbv zeta. rewrite R1, R2, R3, R4, R5, T1, T2, T3, T4, T5. split; reflexivity.
Qed.

(** From the start of the body with the tested cell at [n + 1], the run ends
    normally with the tested cell at 0 after exactly [n + 1] passes. *)
Lemma transfer_from_body (rest input out : list Z) (n : nat) :
  forall (b : Z) (lg : list log_record),
  exists (fuel : nat) b' lg',
    run fuel P BM (two_cells 2 (Z.of_nat (S n)) b rest 0 input out lg) =
      Finished (two_cells 7 0 b' rest 0 input out lg') /\
    loop_iterations 1 (trace fuel P BM (two_cells 2 (Z.of_nat (S n)) b rest 0 input out lg))
      = S n.
Proof.
  induction n as [| n IH]; intros b lg.
  - destruct (transfer_body 1 b rest input out lg) as (b' & lg' & R & T); [lia |].
    exists 5%nat, b', lg'. change (Z.of_nat 1) with 1. rewrite T. split; [exact R | reflexivity].
  - destruct (transfer_body (Z.of_nat (S (S n))) b rest input out lg)
      as (b1 & lg1 & R & T); [lia |].
    cbv zeta in R. destruct (Z.eqb_spec (Z.of_nat (S (S n)) - 1) 0) as [Hz | _]; [lia |].
    replace (Z.of_nat (S (S n)) - 1) with (Z.of_nat (S n)) in R by lia.
    destruct (IH b1 lg1) as (fuel & b' & lg' & R' & T').
    destruct (run_trace_app P BM 5 _ _ fuel R) as [Rapp Tapp].
    exists (5 + fuel)%nat, b', lg'. rewrite Rapp, Tapp, T, loop_iterations_app, T'.
    split; [exact R' | reflexivity].
Qed.

(** X19, the bounded loop: entering the loop at position 1 with the tested cell at
    [n], the run ends normally, with the tested cell at 0, after exactly [n]
    passes through the body. *)
Lemma transfer_loop_bounded (n : nat) (b : Z) (rest input out : list Z)
    (lg : list log_record) :
  exists (fuel : nat) b' lg',
    run fuel P BM (two_cells 1 (Z.of_nat n) b rest 0 input out lg) =
      Finished (two_cells 7 0 b' rest 0 input out lg') /\
    loop_iterations 1 (trace fuel P BM (two_cells 1 (Z.of_nat n) b rest 0 input out lg)) = n.
Proof.
  destruct n as [| n].
  - exists 1%nat, b, lg. split; reflexivity.
  - destruct (transfer_from_body rest input out n b lg) as (fuel & b' & lg' & R & T).
    assert (E : step P BM (two_cells 1 (Z.of_nat (S n)) b rest 0 input out lg) =
                Ok (two_cells 2 (Z.of_nat (S n)) b rest 0 input out lg)).
    { assert (Hget : get_data (machine (two_cells 1 (Z.of_nat (S n)) b rest 0 input out lg))
                     = Ok (Z.of_nat (S n))) by reflexivity.
      assert (Hnz : Z.of_nat (S n) <> 0) by lia.
      exact (step_char P BM (two_cells 1 (Z.of_nat (S n)) b rest 0 input out lg) "[" _
               eq_refl (dispatch_open_skipped BM _ _ Hget Hnz)). }
    destruct (run_step P BM _ _ fuel E) as [R1 T1].
    exists (S fuel), b', lg'. rewrite R1, T1. split; [exact R |].
    change (?x :: ?tr) with ([x] ++ tr). rewrite loop_iterations_app, T. reflexivity.
Qed.

End Runs.

(** * Further properties of the code *)

(** ** Tape operations: what they leave alone and how they compose *)

Section TapeFurther.

Import Array.

Implicit Types (m : Array.t) (v n : Z) (ops : list tape_op).

Lemma array_set_cell_ne m v (i : nat) :
  i <> ptr m -> array (set_cell v m) !! i = array m !! i.
Proof. intros H. cbn. apply list_lookup_insert_ne. congruence. Qed.

(** What one operation does to the shape of the tape. *)
Lemma apply_op_shape o m m' :
  apply_op o m = Ok m' ->
  (length (array m) <= length (array m'))%nat /\
  (length (array m') <= length (array m) + count_right [o])%nat /\
  (forall i : nat, i <> ptr m -> (i < length (array m))%nat ->
     array m' !! i = array m !! i).
Proof.
  destruct o as [n | | | |]; cbn.
  - unfold set_data. case_decide; [| discriminate]. intros [= <-]. cbn.
    rewrite length_insert. repeat split; try lia.
    intros i Hi _. apply list_lookup_insert_ne. congruence.
  - destruct (get_data m) as [v |] eqn:Hv.
    + destruct (increment_cases _ _ Hv) as (v' & l & -> & _). cbn. intros [= <-].
      cbn. rewrite length_insert. repeat split; try lia.
      intros i Hi _. apply list_lookup_insert_ne. congruence.
    + unfold increment. rewrite Hv. discriminate.
  - destruct (get_data m) as [v |] eqn:Hv.
    + destruct (decrement_cases _ _ Hv) as (v' & l & -> & _). cbn. intros [= <-].
      cbn. rewrite length_insert. repeat split; try lia.
      intros i Hi _. apply list_lookup_insert_ne. congruence.
    + unfold decrement. rewrite Hv. discriminate.
  - intros [= <-]. unfold right. case_decide; cbn.
    + rewrite length_app. cbn. repeat split; try lia.
      intros i _ Hi. now apply lookup_app_l.
    + repeat split; lia.
  - unfold left. case_decide; [| discriminate]. intros [= <-]. cbn.
    repeat split; lia.
Qed.

(** From a tape whose pointer is inside the array, an operation can only
    raise from [left]: the [ValueError] at pointer 0. *)
Lemma apply_op_raises o m e :
  valid m -> apply_op o m = Raise e ->
  e = ValueError /\ o = MoveLeft /\ ptr m = 0%nat.
Proof.
  intros Hm. destruct o as [n | | | |]; cbn.
  - now rewrite (set_data_valid _ _ Hm).
  - destruct (valid_get_data _ Hm) as [v Hv].
    now destruct (increment_cases _ _ Hv) as (v' & l & -> & _).
  - destruct (valid_get_data _ Hm) as [v Hv].
    now destruct (decrement_cases _ _ Hv) as (v' & l & -> & _).
  - discriminate.
  - unfold left. case_decide; [discriminate |]. intros [= <-].
    repeat split. lia.
Qed.

Lemma apply_op_valid o m m' : valid m -> apply_op o m = Ok m' -> valid m'.
Proof.
  intros Hm. destruct o as [n | | | |]; cbn.
  - rewrite (set_data_valid _ _ Hm). intros [= <-]. now apply valid_set_cell.
  - destruct (valid_get_data _ Hm) as [v Hv].
    destruct (increment_cases _ _ Hv) as (v' & l & -> & _). cbn. intros [= <-].
    now apply valid_set_cell.
  - destruct (valid_get_data _ Hm) as [v Hv].
    destruct (decrement_cases _ _ Hv) as (v' & l & -> & _). cbn. intros [= <-].
    now apply valid_set_cell.
  - intros [= <-]. now apply valid_right.
  - now apply valid_left.
Qed.

(** X1: whatever sequence of [set_data], [increment], [decrement], [right]
    and [left] is called on a tape whose pointer is inside the array, the
    pointer stays inside the array, the array never gets shorter and grows by
    at most one cell per call of [right]; and the only exception such a
    sequence can end with is the [ValueError] of [left]: the list accesses
    never raise [IndexError]. *)
Theorem tape_ops_keep_pointer_valid ops : forall m,
  valid m ->
  match apply_ops ops m with
  | Ok m' =>
      valid m' /\
      (length (array m) <= length (array m'))%nat /\
      (length (array m') <= length (array m) + count_right ops)%nat
  | Raise e => e = ValueError
  end.
Proof.
  induction ops as [| o ops IH]; intros m Hm; cbn [apply_ops].
  - unfold count_right. cbn. repeat split; [assumption | lia ..].
  - destruct (apply_op o m) as [m1 | e] eqn:E; cbn [mbind result_bind].
    + pose proof (apply_op_valid _ _ _ Hm E) as Hm1.
      destruct (apply_op_shape _ _ _ E) as (Hle & Hge & _).
      specialize (IH m1 Hm1). destruct (apply_ops ops m1) as [m' | e]; [| assumption].
      destruct IH as (Hv & Hle' & Hge'). split; [assumption |].
      assert (count_right (o :: ops) = count_right [o] + count_right ops)%nat
        by (unfold count_right; cbn; destruct o; cbn; lia).
      lia.
    + now destruct (apply_op_raises _ _ _ Hm E).
Qed.

Lemma tape_ops_keep_pointer_valid_witness :
  match apply_ops [MoveRight; Write 300; MoveRight; MoveLeft; Decrement]
          {| array := [7; 0]; ptr := 0 |} with
  | Ok m' =>
      valid m' /\ (2 <= length (array m'))%nat /\
      (length (array m') <= 2 + 2)%nat
  | Raise e => e = ValueError
  end.
Proof.
  apply (tape_ops_keep_pointer_valid [MoveRight; Write 300; MoveRight; MoveLeft; Decrement]
           {| array := [7; 0]; ptr := 0 |}).
  unfold valid. cbn. lia.
Defined.

(** X2: on a cell holding a byte, [decrement] undoes [increment], and neither
    logs anything: the pair leaves the tape exactly as it was. *)
Theorem decrement_after_increment m v :
  get_data m = Ok v -> 0 <= v <= 255 ->
  exists m1, increment m = Ok (m1, []) /\ decrement m1 = Ok (m, []).
Proof.
  intros Hv Hb. pose proof (get_data_valid _ _ Hv) as Hm.
  exists (set_cell (v + 1) m). split; [apply increment_small; [assumption | lia] |].
  rewrite (decrement_small (set_cell (v + 1) m) (v + 1))
    by (try apply get_data_set_cell; try assumption; lia).
  rewrite set_cell_set_cell. replace (v + 1 - 1) with v by lia.
  now rewrite (set_cell_id _ _ Hv).
Qed.

Lemma decrement_after_increment_witness :
  exists m1, increment {| array := [255; 3]; ptr := 0 |} = Ok (m1, []) /\
             decrement m1 = Ok ({| array := [255; 3]; ptr := 0 |}, []).
Proof.
  apply (decrement_after_increment {| array := [255; 3]; ptr := 0 |} 255); [reflexivity | lia].
Defined.

(** X3: [increment] undoes [decrement] only on a cell holding 1..256.  On a
    cell holding 0, [decrement] stores 255 and logs the underflow, and the
    [increment] that follows stores 256, not 0, without logging. *)
Theorem increment_after_decrement m v :
  get_data m = Ok v ->
  (1 <= v <= 256 ->
     exists m1, decrement m = Ok (m1, []) /\ increment m1 = Ok (m, [])) /\
  (v = 0 ->
     decrement m = Ok (set_cell 255 m, [BufferUnderflow (ptr m)]) /\
     increment (set_cell 255 m) = Ok (set_cell 256 m, [])).
Proof.
  intros Hv. pose proof (get_data_valid _ _ Hv) as Hm. split.
  - intros Hr. exists (set_cell (v - 1) m).
    split; [apply decrement_small; [assumption | lia] |].
    rewrite (increment_small (set_cell (v - 1) m) (v - 1))
      by (try apply get_data_set_cell; try assumption; lia).
    rewrite set_cell_set_cell. replace (v - 1 + 1) with v by lia.
    now rewrite (set_cell_id _ _ Hv).
  - intros ->.
    split; [now rewrite (decrement_wrap m 0) by (assumption || lia) |].
    rewrite (increment_small (set_cell 255 m) 255)
      by (try apply get_data_set_cell; try assumption; lia).
    now rewrite set_cell_set_cell.
Qed.

Lemma increment_after_decrement_witness :
  (exists m1, decrement {| array := [256]; ptr := 0 |} = Ok (m1, []) /\
              increment m1 = Ok ({| array := [256]; ptr := 0 |}, [])) /\
  (decrement {| array := [0]; ptr := 0 |} =
     Ok ({| array := [255]; ptr := 0 |}, [BufferUnderflow 0]) /\
   increment {| array := [255]; ptr := 0 |} = Ok ({| array := [256]; ptr := 0 |}, [])).
Proof.
  split.
  - apply (increment_after_decrement {| array := [256]; ptr := 0 |} 256); [reflexivity | lia].
  - apply (increment_after_decrement {| array := [0]; ptr := 0 |} 0); reflexivity.
Defined.

(** X4: [left] after [right] always succeeds and brings the pointer back; the
    array is the old one, with one zero cell appended when the pointer was at
    the last cell.  [right] after a successful [left] restores the tape. *)
Theorem left_right_compose m :
  valid m ->
  left (right m) =
    Ok {| array := if decide (S (ptr m) = length (array m)) then array m ++ [0] else array m;
          ptr := ptr m |} /\
  (forall m', left m = Ok m' -> right m' = m).
Proof.
  unfold valid. intros Hm. split.
  - unfold left, right. cbn. repeat case_decide; cbn in *; try lia;
      rewrite Nat.sub_0_r; reflexivity.
  - unfold left. case_decide; [| discriminate]. intros m' [= <-].
    unfold right. cbn. rewrite decide_False by lia.
    destruct m as [a p]. cbn in *. f_equal. lia.
Qed.

Lemma left_right_compose_witness :
  left (right {| array := [4; 5]; ptr := 1 |}) = Ok {| array := [4; 5; 0]; ptr := 1 |} /\
  (forall m', left {| array := [4; 5]; ptr := 1 |} = Ok m' ->
     right m' = {| array := [4; 5]; ptr := 1 |}).
Proof.
  apply (left_right_compose {| array := [4; 5]; ptr := 1 |}). unfold valid. cbn. lia.
Defined.

End TapeFurther.

(** ** The brace map and the brackets of the program *)

Section BraceStructure.

Implicit Types (full rest pre program : list ascii) (pos : nat) (stack : list nat)
  (bm : gmap nat nat).

Lemma brace_struct_init full : brace_struct full 0 [] ∅.
Proof.
  split; [| split].
  - intros k q H. now rewrite lookup_empty in H.
  - intros k H. now apply elem_of_nil in H.
  - intros k H. lia.
Qed.

Lemma lookup_middle_char pre (c : ascii) rest : (pre ++ c :: rest) !! length pre = Some c.
Proof. now rewrite list_lookup_middle. Qed.

Lemma brace_loop_struct full : forall rest pre stack bm bm',
  full = pre ++ rest ->
  brace_inv (length pre) stack bm ->
  brace_struct full (length pre) stack bm ->
  brace_loop rest (length pre) stack bm = Ok bm' ->
  exists stack', brace_inv (length full) stack' bm' /\
                 brace_struct full (length full) stack' bm'.
Proof.
  induction rest as [| c rest IH]; intros pre stack bm bm' Hfull Hinv Hstr; cbn.
  - intros [= <-]. exists stack. subst full. rewrite app_nil_r in *. auto.
  - assert (Hfull' : full = (pre ++ [c]) ++ rest) by (now rewrite <- app_assoc).
    assert (Hlen : length (pre ++ [c]) = S (length pre))
      by (rewrite length_app; cbn; lia).
    assert (Hc : full !! length pre = Some c) by (subst full; apply lookup_middle_char).
    specialize (IH (pre ++ [c])). rewrite Hlen in IH.
    destruct Hstr as (Hpair & Hstack & Hclose).
    destruct (Ascii.eqb_spec c "["%char) as [-> | Hopen]; cbn.
    + apply IH; [assumption | now apply brace_inv_push |].
      split; [assumption |]. split.
      * intros k Hk. apply elem_of_app in Hk as [Hk | Hk]; [now apply Hstack |].
        apply list_elem_of_singleton in Hk. now subst.
      * intros k Hk Hkc. apply Hclose; [| assumption].
        assert (k <> length pre) by (intros ->; congruence). lia.
    + destruct (Ascii.eqb_spec c "]"%char) as [-> | Hclose'].
      * destruct stack as [| start stack]; [discriminate |].
        pose proof Hinv as (Hi1 & Hi2 & Hi3 & Hi4).
        destruct (Hi3 start) as [Hlt Hnone]; [left |].
        assert (Hstart : full !! start = Some "["%char) by (apply Hstack; left).
        apply IH; [assumption | now apply brace_inv_pop |].
        split; [| split].
        -- intros k q Hk.
           destruct (decide (k = length pre)) as [-> | Hkp].
           { rewrite lookup_insert_eq in Hk. injection Hk as <-. right. auto. }
           rewrite lookup_insert_ne in Hk by lia.
           destruct (decide (k = start)) as [-> | Hks].
           { rewrite lookup_insert_eq in Hk. injection Hk as <-. left. auto. }
           rewrite lookup_insert_ne in Hk by lia. now apply Hpair.
        -- intros k Hk. apply Hstack. now right.
        -- intros k Hk Hkc. rewrite !lookup_insert_is_Some'.
           destruct (decide (k = length pre)) as [-> | Hkp]; [now left |].
           right. right. apply Hclose; [lia | assumption].
      * apply IH; [assumption | now apply brace_inv_skip |].
        split; [assumption |]. split; [assumption |].
        intros k Hk Hkc. apply Hclose; [| assumption].
        assert (k <> length pre) by (intros ->; congruence). lia.
Qed.

(** X5: in the map [make_brace_map] returns, every key is the position of a
    bracket of the program: an opening bracket is mapped to a closing bracket
    further right, a closing bracket to an opening bracket further left.
    Every closing bracket is a key, and when the program is balanced every
    opening bracket is one too. *)
Theorem brace_map_keys_are_brackets program bm :
  make_brace_map program = Ok bm ->
  (forall k q : nat, bm !! k = Some q ->
     (program !! k = Some "["%char /\ program !! q = Some "]"%char /\ (k < q)%nat) \/
     (program !! k = Some "]"%char /\ program !! q = Some "["%char /\ (q < k)%nat)) /\
  (forall k : nat, program !! k = Some "]"%char -> is_Some (bm !! k)) /\
  (balanced program ->
   forall k : nat, program !! k = Some "["%char -> is_Some (bm !! k)).
Proof.
  intros Hbm.
  destruct (brace_loop_struct program program [] [] ∅ bm eq_refl brace_inv_init
              (brace_struct_init program) Hbm) as (stack' & _ & Hpair & _ & Hclose).
  split; [assumption |]. split.
  - intros k Hk. apply Hclose; [| assumption]. exact (lookup_lt_Some _ _ _ Hk).
  - intros Hbal k Hk.
    destruct (make_brace_map_total program bm k "["%char Hbm Hbal Hk) as [q Hq]; eauto.
Qed.

Lemma brace_map_keys_are_brackets_witness :
  let bm : gmap nat nat :=
    <[3%nat := 1%nat]> (<[1%nat := 3%nat]> (<[2%nat := 0%nat]> (<[0%nat := 2%nat]> ∅))) in
  (forall k q : nat, bm !! k = Some q ->
     (prog "[[]]" !! k = Some "["%char /\ prog "[[]]" !! q = Some "]"%char /\ (k < q)%nat) \/
     (prog "[[]]" !! k = Some "]"%char /\ prog "[[]]" !! q = Some "["%char /\ (q < k)%nat)) /\
  (forall k : nat, prog "[[]]" !! k = Some "]"%char -> is_Some (bm !! k)) /\
  (balanced (prog "[[]]") ->
   forall k : nat, prog "[[]]" !! k = Some "["%char -> is_Some (bm !! k)).
Proof.
  intros bm. apply (brace_map_keys_are_brackets (prog "[[]]") bm). reflexivity.
Defined.

(** The values of the map are positions of the program. *)
Lemma brace_map_values_in_range program bm (k q : nat) :
  make_brace_map program = Ok bm -> bm !! k = Some q ->
  (k < length program)%nat /\ (q < length program)%nat.
Proof.
  intros Hbm Hk.
  destruct (brace_map_keys_are_brackets program bm Hbm) as (Hpair & _).
  destruct (Hpair k q Hk) as [(H1 & H2 & _) | (H1 & H2 & _)];
    split; eapply lookup_lt_Some; eassumption.
Qed.

(** The deque and the specification's stack hold the same positions as long
    as at most one bracket is pending. *)
Lemma flat_loops_agree program : forall pos stack bm,
  (length stack <= 1)%nat ->
  flat program (length stack) = true ->
  depth_scan program (length stack) = Some 0%nat ->
  exists bm', brace_loop program pos stack bm = Ok bm' /\
              jump_table_loop_spec program pos stack bm = Some bm'.
Proof.
  induction program as [| c rest IH]; intros pos stack bm Hlen; cbn.
  - intros _ [= H0]. destruct stack; [eauto | discriminate].
  - destruct (Ascii.eqb_spec c "["%char) as [-> | Hopen]; cbn.
    + destruct stack as [| x stack]; cbn; [| discriminate].
      intros Hflat Hdepth. now apply (IH (S pos) [pos] bm).
    + destruct (Ascii.eqb_spec c "]"%char) as [-> | Hclose].
      * destruct stack as [| x stack]; cbn; [discriminate |].
        intros Hflat Hdepth. apply IH; [cbn in Hlen; lia | assumption ..].
      * intros Hflat Hdepth. now apply IH.
Qed.

(** X6: on a balanced program in which no loop is nested in another,
    [make_brace_map] returns exactly the jump table of last-in-first-out
    matching: taking the oldest pending bracket differs from taking the
    newest only when two are pending. *)
Theorem brace_map_correct_without_nesting program :
  balanced program -> flat program 0 = true ->
  exists bm, make_brace_map program = Ok bm /\ build_jump_table_spec program = Some bm.
Proof.
  intros Hbal Hflat. apply (flat_loops_agree program 0 [] ∅); cbn; [lia | assumption ..].
Qed.

Lemma brace_map_correct_without_nesting_witness :
  exists bm, make_brace_map (prog "+[>+<-]>[-]") = Ok bm /\
             build_jump_table_spec (prog "+[>+<-]>[-]") = Some bm.
Proof.
  apply (brace_map_correct_without_nesting (prog "+[>+<-]>[-]")); reflexivity.
Defined.

(** X7: [make_brace_map] raises exactly when the program has a closing
    bracket with no opening bracket pending, and then it raises
    [IndexError]; unmatched opening brackets never make it raise. *)
Theorem make_brace_map_raises_iff program :
  (unmatched_close program <-> make_brace_map program = Raise IndexError) /\
  (forall e, make_brace_map program = Raise e -> e = IndexError) /\
  (~ unmatched_close program <-> exists bm, make_brace_map program = Ok bm).
Proof.
  unfold unmatched_close, make_brace_map.
  pose proof (brace_loop_depth program 0 [] ∅) as G. cbn in G.
  destruct (depth_scan program 0) as [d |].
  - destruct G as [bm' G]. rewrite G. split; [| split].
    + split; discriminate.
    + discriminate.
    + split; [eauto | discriminate].
  - rewrite G. split; [| split].
    + split; reflexivity.
    + now intros e [= <-].
    + split; [congruence | intros [bm' H]; discriminate].
Qed.

Lemma make_brace_map_raises_iff_witness :
  make_brace_map (prog "[]]") = Raise IndexError /\
  (exists bm, make_brace_map (prog "[[]") = Ok bm).
Proof.
  split.
  - apply (proj1 (make_brace_map_raises_iff (prog "[]]"))). reflexivity.
  - apply (proj2 (proj2 (make_brace_map_raises_iff (prog "[[]")))). discriminate.
Defined.

End BraceStructure.

(** ** What a run keeps true *)

Section RunInvariants.

Import Array.

Implicit Types (program : list ascii) (bm : gmap nat nat) (s : state) (m : Array.t).

Lemma apply_op_code_points (o : tape_op) m m' :
  valid m -> cells_within 0 1114111 m ->
  (forall n, o = Write n -> code_point n) ->
  apply_op o m = Ok m' -> cells_within 0 1114111 m'.
Proof.
  intros Hm Hc Hw. destruct o as [n | | | |]; cbn.
  - rewrite (set_data_valid _ _ Hm). intros [= <-].
    apply cells_within_set_cell; [assumption |].
    specialize (Hw n eq_refl). unfold code_point in Hw. lia.
  - destruct (valid_get_data _ Hm) as [v Hv].
    destruct (increment_cases _ _ Hv) as (v' & l & -> & Hcase). cbn. intros [= <-].
    pose proof (cells_within_get_data _ _ _ _ Hc Hv).
    pose proof (Z.mod_pos_bound (v + 1) 256).
    apply cells_within_set_cell; [assumption | lia].
  - destruct (valid_get_data _ Hm) as [v Hv].
    destruct (decrement_cases _ _ Hv) as (v' & l & -> & Hcase). cbn. intros [= <-].
    pose proof (cells_within_get_data _ _ _ _ Hc Hv).
    pose proof (Z.mod_pos_bound (v - 1) 256).
    apply cells_within_set_cell; [assumption | lia].
  - intros [= <-]. apply cells_within_right; [lia | assumption].
  - now apply cells_within_left.
Qed.

(** The effect of an instruction that changes the tape through [o]. *)
Lemma tape_instruction_effect (o : tape_op) s m' (l : list log_record) :
  state_ok s -> (forall n, o <> Write n) ->
  apply_op o (machine s) = Ok m' ->
  state_ok (with_machine s m' l) /\
  (length (array (machine s)) <= length (array m'))%nat /\
  (forall i : nat, i <> ptr (machine s) -> (i < length (array (machine s)))%nat ->
     array m' !! i = array (machine s) !! i).
Proof.
  intros (Hm & Hc & Hin) Hw Hop.
  destruct (apply_op_shape _ _ _ Hop) as (Hle & _ & Hframe).
  split; [| auto]. split; [| split]; cbn.
  - exact (apply_op_valid _ _ _ Hm Hop).
  - apply (apply_op_code_points o (machine s)); try assumption.
    intros n ->. now destruct (Hw n).
  - assumption.
Qed.

Ltac io_unchanged :=
  repeat match goal with
  | |- exists x : list _, ?a = ?a ++ x => exists []; symmetry; apply app_nil_r
  | |- exists x : list _, ?a ++ [] = ?a ++ x => exists []; reflexivity
  | |- exists x : list _, ?a = x ++ ?a => exists []; reflexivity
  | |- exists x : list _, ?a ++ ?l = ?a ++ x => exists l; reflexivity
  | |- _ /\ _ => split
  end.

(** Everything one pass through the [if]/[elif] chain can do. *)
Lemma dispatch_effect bm (c : ascii) s :
  state_ok s ->
  match dispatch bm c s with
  | Ok s' =>
      state_ok s' /\
      (position s' = position s \/
       ((c = "["%char \/ c = "]"%char) /\ bm !! position s = Some (position s'))) /\
      (exists out, stdout s' = stdout s ++ out) /\
      (exists l, log s' = log s ++ l) /\
      (exists inp, stdin s = inp ++ stdin s') /\
      (length (array (machine s)) <= length (array (machine s')))%nat /\
      (forall i : nat, i <> ptr (machine s) -> (i < length (array (machine s)))%nat ->
         array (machine s') !! i = array (machine s) !! i)
  | Raise e =>
      (e = ValueError /\ c = "<"%char /\ ptr (machine s) = 0%nat) \/
      (e = TypeError /\ c = ","%char /\ stdin s = []) \/
      (e = KeyError (position s) /\ bm !! position s = None /\
       ((c = "["%char /\ get_data (machine s) = Ok 0) \/
        (c = "]"%char /\ exists v, get_data (machine s) = Ok v /\ v <> 0)))
  end.
Proof.
  intros Hok. pose proof Hok as (Hm & Hc & Hin).
  destruct (valid_get_data _ Hm) as [v Hv].
  pose proof (cells_within_get_data _ _ _ _ Hc Hv) as Hrange.
  unfold dispatch.
  destruct (Ascii.eqb_spec c ">"%char) as [-> | N1].
  { destruct (tape_instruction_effect MoveRight s (right (machine s)) [] Hok)
      as (Hok' & Hle & Hfr); [discriminate | reflexivity |].
    split; [assumption |]. split; [now left |]. cbn. io_unchanged; assumption. }
  destruct (Ascii.eqb_spec c "<"%char) as [-> | N2].
  { destruct (left (machine s)) as [m' |] eqn:El; cbn.
    - destruct (tape_instruction_effect MoveLeft s m' [] Hok) as (Hok' & Hle & Hfr);
        [discriminate | assumption |].
      split; [assumption |]. split; [now left |]. cbn. io_unchanged; assumption.
    - left. destruct (apply_op_raises MoveLeft _ _ Hm El) as (-> & _ & Hp). auto. }
  destruct (Ascii.eqb_spec c "+"%char) as [-> | N3].
  { destruct (increment_cases _ _ Hv) as (v' & l & Hinc & _). rewrite Hinc. cbn.
    destruct (tape_instruction_effect Increment s (set_cell v' (machine s)) l Hok)
      as (Hok' & Hle & Hfr); [discriminate | cbn; now rewrite Hinc |].
    split; [assumption |]. split; [now left |]. cbn. io_unchanged; assumption. }
  destruct (Ascii.eqb_spec c "-"%char) as [-> | N4].
  { destruct (decrement_cases _ _ Hv) as (v' & l & Hdec & _). rewrite Hdec. cbn.
    destruct (tape_instruction_effect Decrement s (set_cell v' (machine s)) l Hok)
      as (Hok' & Hle & Hfr); [discriminate | cbn; now rewrite Hdec |].
    split; [assumption |]. split; [now left |]. cbn. io_unchanged; assumption. }
  destruct (Ascii.eqb_spec c "."%char) as [-> | N5].
  { rewrite Hv. cbn.
    destruct (Z.leb_spec 0 v); [| lia]. destruct (Z.ltb_spec v 1114112); [| lia]. cbn.
    split; [now repeat split |]. split; [now left |].
    split; [now exists [v] |]. io_unchanged; auto. }
  destruct (Ascii.eqb_spec c ","%char) as [-> | N6].
  { destruct (stdin s) as [| x input] eqn:Ein; [right; left; auto |].
    rewrite (set_data_valid _ _ Hm). cbn.
    apply Forall_cons in Hin as [Hx Hin].
    split; [| split; [now left |]].
    - split; [| split]; cbn; [now apply valid_set_cell | | assumption].
      apply cells_within_set_cell; [assumption |]. unfold code_point in Hx. lia.
    - split; [io_unchanged |]. split; [io_unchanged |]. split; [now exists [x] |].
      cbn. rewrite length_insert. split; [lia |].
      intros i Hi _. apply list_lookup_insert_ne. congruence. }
  destruct (Ascii.eqb_spec c "["%char) as [-> | N7].
  { rewrite Hv. cbn. unfold brace_lookup.
    destruct (Z.eqb_spec v 0) as [-> | Hnz].
    - destruct (bm !! position s) as [q |] eqn:Eq; cbn.
      + split; [assumption |]. split; [right; auto |]. io_unchanged; auto.
      + right. right. auto.
    - split; [assumption |]. split; [now left |]. io_unchanged; auto. }
  destruct (Ascii.eqb_spec c "]"%char) as [-> | N8].
  { rewrite Hv. cbn. unfold brace_lookup.
    destruct (Z.eqb_spec v 0) as [-> | Hnz]; cbn.
    - split; [assumption |]. split; [now left |]. io_unchanged; auto.
    - destruct (bm !! position s) as [q |] eqn:Eq; cbn.
      + split; [assumption |]. split; [right; auto |]. io_unchanged; auto.
      + right. right. split; [reflexivity |]. split; [reflexivity |]. right. eauto. }
  split; [assumption |]. split; [now left |]. io_unchanged; auto.
Qed.

Lemma state_ok_with_position s (p : nat) : state_ok s -> state_ok (with_position s p).
Proof. now intros (? & ? & ?). Qed.

Lemma state_ok_initial (input : list Z) : Forall code_point input -> state_ok (initial input).
Proof.
  intros H. split; [apply valid_init |]. split; [| assumption].
  apply cells_within_fresh. lia.
Qed.

(** Everything a run of the loop can do, by induction on the bound. *)
Lemma run_effect program bm :
  (forall k q : nat, bm !! k = Some q -> (q < length program)%nat) ->
  forall (fuel : nat) s,
  state_ok s -> (position s <= length program)%nat ->
  let s' := outcome_state (run fuel program bm s) in
  state_ok s' /\ (position s' <= length program)%nat /\
  (exists out, stdout s' = stdout s ++ out) /\
  (exists l, log s' = log s ++ l) /\
  (exists inp, stdin s = inp ++ stdin s') /\
  (length (array (machine s)) <= length (array (machine s')))%nat /\
  match run fuel program bm s with
  | Finished s' => position s' = length program
  | Crashed e s' => crash_cause program bm e s'
  | OutOfFuel s' => (position s' < length program)%nat
  end.
Proof.
  intros Hbm. induction fuel as [| fuel IH]; intros s Hok Hpos; cbn [run].
  - destruct (decide (position s < length program)%nat); cbn;
      (split; [assumption |]); (split; [assumption |]); io_unchanged; lia.
  - destruct (decide (position s < length program)%nat) as [Hlt | Hge]; cbn;
      [| (split; [assumption |]); (split; [assumption |]); io_unchanged; lia].
    unfold step. destruct (lookup_lt_is_Some_2 program _ Hlt) as [c Hc]. rewrite Hc.
    pose proof (dispatch_effect bm c s Hok) as Hd.
    destruct (dispatch bm c s) as [s1 | e]; cbn.
    + destruct Hd as (Hok1 & Hp1 & (o1 & Ho1) & (l1 & Hl1) & (i1 & Hi1) & Hle1 & _).
      assert (Hpos1 : (S (position s1) <= length program)%nat).
      { destruct Hp1 as [-> | (_ & Hq)]; [lia |]. specialize (Hbm _ _ Hq). lia. }
      destruct (IH (with_position s1 (S (position s1)))
                  (state_ok_with_position _ _ Hok1) Hpos1)
        as (Hok' & Hpos' & (o2 & Ho2) & (l2 & Hl2) & (i2 & Hi2) & Hle2 & Hend).
      cbn in Ho2, Hl2, Hi2, Hle2.
      split; [assumption |]. split; [assumption |].
      split; [exists (o1 ++ o2); now rewrite Ho2, Ho1, app_assoc |].
      split; [exists (l1 ++ l2); now rewrite Hl2, Hl1, app_assoc |].
      split; [exists (i1 ++ i2); now rewrite Hi1, Hi2, app_assoc |].
      split; [lia | assumption].
    + split; [assumption |]. split; [assumption |]. io_unchanged; try lia.
      unfold crash_cause. rewrite Hc.
      destruct Hd as [(-> & -> & Hp) | [(-> & -> & Hin) | (-> & Hnone & Hbr)]]; auto.
      right. right. split; [reflexivity |]. split; [assumption |].
      destruct Hbr as [(-> & Hv) | (-> & Hv)]; auto.
Qed.

(** X8: along every run of [interpret] on input made of code points, whatever
    the program, the pointer stays inside the array and every cell holds a
    code point, so that reading or writing the current cell never raises
    and the [chr] of the output instruction never fails; the tape keeps at
    least its 30000 cells, the position never passes the end of the program,
    and the characters left to read are a suffix of the input.  A run that
    ends normally ends with the position at the length of the program. *)
Theorem interpret_state_ok program (fuel : nat) (input : list Z) :
  Forall code_point input ->
  let s := outcome_state (interpret fuel program input) in
  valid (machine s) /\
  cells_within 0 1114111 (machine s) /\
  (size <= length (array (machine s)))%nat /\
  (position s <= length program)%nat /\
  (exists consumed, input = consumed ++ stdin s) /\
  (forall s', interpret fuel program input = Finished s' -> position s' = length program).
Proof.
  intros Hin. pose proof (state_ok_initial input Hin) as Hok0.
  assert (Hsize : length (array (machine (initial input))) = size)
    by (cbn; apply length_replicate).
  unfold interpret. destruct (make_brace_map program) as [bm | e] eqn:Hbm; cbn.
  - assert (Hrange : forall k q : nat, bm !! k = Some q -> (q < length program)%nat)
      by (intros k q Hk; now destruct (brace_map_values_in_range program bm k q Hbm Hk)).
    destruct (run_effect program bm Hrange fuel (initial input) Hok0)
      as ((Hv & Hc & _) & Hpos & _ & _ & Hinp & Hle & Hend); [cbn; lia |].
    rewrite Hsize in Hle.
    refine (conj Hv (conj Hc (conj Hle (conj Hpos (conj Hinp _))))).
    intros s' Hs'. now rewrite Hs' in Hend.
  - destruct Hok0 as (Hv & Hc & _). rewrite <- Hsize.
    refine (conj Hv (conj Hc (conj (Nat.le_refl _) (conj (Nat.le_0_l _) (conj _ _))))).
    + now exists [].
    + discriminate.
Qed.

Lemma interpret_state_ok_witness :
  let s := outcome_state (interpret 4 (prog ",>,.") [300; 65]) in
  valid (machine s) /\
  cells_within 0 1114111 (machine s) /\
  (size <= length (array (machine s)))%nat /\
  (position s <= length (prog ",>,."))%nat /\
  (exists consumed, [300; 65] = consumed ++ stdin s) /\
  (forall s', interpret 4 (prog ",>,.") [300; 65] = Finished s' ->
     position s' = length (prog ",>,.")).
Proof.
  apply (interpret_state_ok (prog ",>,.") 4 [300; 65]).
  repeat constructor; unfold code_point; lia.
Defined.



(** X10: one iteration of the loop changes no cell other than the one under
    the pointer and never shortens the tape; it only appends to the output
    and to the log, and only takes characters from the front of the input. *)
Theorem step_changes_current_cell_only program bm s s' :
  state_ok s ->
  step program bm s = Ok s' ->
  (forall i : nat, i <> ptr (machine s) -> (i < length (array (machine s)))%nat ->
     array (machine s') !! i = array (machine s) !! i) /\
  (length (array (machine s)) <= length (array (machine s')))%nat /\
  (exists out, stdout s' = stdout s ++ out) /\
  (exists l, log s' = log s ++ l) /\
  (exists inp, stdin s = inp ++ stdin s').
Proof.
  intros Hok. unfold step. destruct (program !! position s) as [c |]; [| discriminate].
  pose proof (dispatch_effect bm c s Hok) as Hd.
  destruct (dispatch bm c s) as [s1 | e]; cbn; [| discriminate].
  intros [= <-]. cbn. destruct Hd as (_ & _ & Ho & Hl & Hi & Hle & Hfr). auto.
Qed.

Lemma step_changes_current_cell_only_witness :
  let s := {| machine := {| array := [7; 8; 9]; ptr := 1 |}; position := 0;
              stdin := [65; 66]; stdout := [1]; log := [] |} in
  let s' := {| machine := {| array := [7; 65; 9]; ptr := 1 |}; position := 1;
               stdin := [66]; stdout := [1]; log := [] |} in
  (forall i : nat, i <> 1%nat -> (i < 3)%nat ->
     array (machine s') !! i = array (machine s) !! i) /\
  (3 <= 3)%nat /\
  (exists out, stdout s' = stdout s ++ out) /\
  (exists l, log s' = log s ++ l) /\
  (exists inp, stdin s = inp ++ stdin s').
Proof.
  intros s s'. apply (step_changes_current_cell_only (prog ",.") ∅ s s'); [| reflexivity].
  split; [unfold valid; cbn; lia |].
  split; repeat constructor; unfold code_point; lia.
Defined.

(** An instruction other than a bracket leaves the position to the [+= 1]. *)
Lemma dispatch_position bm (c : ascii) s s' :
  c <> "["%char -> c <> "]"%char -> dispatch bm c s = Ok s' -> position s' = position s.
Proof.
  intros Hopen Hclose. unfold dispatch.
  destruct (Ascii.eqb_spec c ">"%char); [now intros [= <-] |].
  destruct (Ascii.eqb_spec c "<"%char).
  { destruct (left (machine s)); cbn; [now intros [= <-] | discriminate]. }
  destruct (Ascii.eqb_spec c "+"%char).
  { destruct (increment (machine s)) as [[m' l] |]; cbn; [now intros [= <-] | discriminate]. }
  destruct (Ascii.eqb_spec c "-"%char).
  { destruct (decrement (machine s)) as [[m' l] |]; cbn; [now intros [= <-] | discriminate]. }
  destruct (Ascii.eqb_spec c "."%char).
  { destruct (get_data (machine s)) as [v |]; cbn; [| discriminate].
    destruct ((0 <=? v) && (v <? 1114112)); [now intros [= <-] | discriminate]. }
  destruct (Ascii.eqb_spec c ","%char).
  { destruct (stdin s) as [| x input]; [discriminate |].
    destruct (set_data x (machine s)); cbn; [now intros [= <-] | discriminate]. }
  destruct (Ascii.eqb_spec c "["%char); [contradiction |].
  destruct (Ascii.eqb_spec c "]"%char); [contradiction |].
  now intros [= <-].
Qed.

Lemma run_bracket_free program bm :
  bracket_free program ->
  forall (fuel : nat) s,
  (length program - position s <= fuel)%nat ->
  forall s', run fuel program bm s <> OutOfFuel s'.
Proof.
  intros Hfree. induction fuel as [| fuel IH]; intros s Hfuel s'; cbn [run].
  - rewrite decide_False by lia. discriminate.
  - destruct (decide (position s < length program)%nat) as [Hlt | Hge]; [| discriminate].
    unfold step. destruct (program !! position s) as [c |] eqn:Hc; [| discriminate].
    unfold bracket_free in Hfree. rewrite Forall_lookup in Hfree.
    destruct (Hfree _ _ Hc) as [Hopen Hclose].
    destruct (dispatch bm c s) as [s1 | e] eqn:Hd; cbn; [| discriminate].
    apply IH. cbn. rewrite (dispatch_position _ _ _ _ Hopen Hclose Hd). lia.
Qed.

(** X11: a program without brackets always ends, normally or with an
    exception, within as many iterations as it has characters; a larger
    bound changes nothing. *)
Theorem bracket_free_terminates program (fuel : nat) (input : list Z) :
  bracket_free program -> (length program <= fuel)%nat ->
  (forall s', interpret fuel program input <> OutOfFuel s') /\
  interpret fuel program input = interpret (length program) program input.
Proof.
  intros Hfree Hfuel. unfold interpret.
  destruct (make_brace_map program) as [bm | e]; [| split; [discriminate | reflexivity]].
  split.
  - apply run_bracket_free; [assumption | cbn; lia].
  - replace fuel with (length program + (fuel - length program))%nat by lia.
    apply run_more_fuel. apply run_bracket_free; [assumption | cbn; lia].
Qed.

Lemma bracket_free_terminates_witness :
  (forall s', interpret 9 (prog ",+.<") [65] <> OutOfFuel s') /\
  interpret 9 (prog ",+.<") [65] = interpret (length (prog ",+.<")) (prog ",+.<") [65].
Proof.
  apply (bracket_free_terminates (prog ",+.<") 9 [65]).
  - repeat constructor; discriminate.
  - cbn. lia.
Defined.

(** X12: an empty loop on a cell that is not 0 never ends.  At a closing
    bracket whose partner is the position just before it, with the current
    cell not 0, the iteration leads back to the same state, so every bound
    on the number of iterations is reached. *)
Theorem empty_loop_runs_forever program bm s (v : Z) (fuel : nat) :
  program !! position s = Some "]"%char ->
  get_data (machine s) = Ok v -> v <> 0 ->
  (0 < position s)%nat ->
  bm !! position s = Some (position s - 1)%nat ->
  run fuel program bm s = OutOfFuel s.
Proof.
  intros Hc Hv Hnz Hpos Hbm.
  assert (Hstep : step program bm s = Ok s).
  { rewrite (step_char program bm s "]" _ Hc (dispatch_close_taken bm s v _ Hv Hnz Hbm)).
    destruct s as [m p i o l]. unfold with_position. cbn in *. do 2 f_equal. lia. }
  pose proof (lookup_lt_Some _ _ _ Hc) as Hlt.
  induction fuel as [| fuel IH]; cbn [run]; rewrite decide_True by assumption.
  - reflexivity.
  - now rewrite Hstep.
Qed.

Lemma empty_loop_runs_forever_witness :
  let s := {| machine := {| array := [1]; ptr := 0 |}; position := 2;
              stdin := []; stdout := []; log := [] |} in
  run 1000 (prog "+[]") (<[2%nat := 1%nat]> (<[1%nat := 2%nat]> ∅)) s = OutOfFuel s.
Proof.
  intros s.
  apply (empty_loop_runs_forever (prog "+[]") (<[2%nat := 1%nat]> (<[1%nat := 2%nat]> ∅))
           s 1 1000); [reflexivity | reflexivity | lia | cbn; lia | reflexivity].
Defined.

End RunInvariants.

(** ** cleanup and execute *)

Section Cleanup.

Implicit Types (code : list ascii) (c : ascii).

Lemma is_command_In c : is_command c = true <-> In c commands.
Proof.
  unfold is_command. rewrite existsb_exists. split.
  - intros (x & Hx & E). apply Ascii.eqb_eq in E. now subst.
  - intros H. exists c. split; [assumption | apply Ascii.eqb_refl].
Qed.

(** X13: [cleanup] keeps exactly the eight command characters, in their
    order.  Every occurrence of a command is kept: a command occurs in the
    result as often as in the text, and nothing else occurs in it; the
    result is a subsequence of the text; [cleanup] goes through
    concatenation, keeps a single command and drops any other single
    character; a text made of commands only is returned unchanged, and
    cleaning up twice is the same as once. *)
Theorem cleanup_keeps_commands code :
  (forall c, In c (cleanup code) <-> In c code /\ In c commands) /\
  (forall c, In c commands ->
     count_occ ascii_dec (cleanup code) c = count_occ ascii_dec code c) /\
  (forall c, ~ In c commands -> count_occ ascii_dec (cleanup code) c = 0%nat) /\
  sublist (cleanup code) code /\
  (forall code', cleanup (code ++ code') = cleanup code ++ cleanup code') /\
  (forall c, cleanup [c] = if is_command c then [c] else []) /\
  (Forall (fun c => In c commands) code -> cleanup code = code) /\
  cleanup (cleanup code) = cleanup code.
Proof.
  unfold cleanup. repeat apply conj.
  - intros c. rewrite filter_In. now rewrite is_command_In.
  - intros c Hc. apply is_command_In in Hc.
    induction code as [| a code IH]; cbn [List.filter]; [reflexivity |].
    destruct (is_command a) eqn:E; cbn [count_occ].
    + destruct (ascii_dec a c); now rewrite IH.
    + destruct (ascii_dec a c) as [-> | _]; [congruence | exact IH].
  - intros c Hc. apply count_occ_not_In. rewrite filter_In, is_command_In. tauto.
  - induction code as [| c code IH]; cbn [List.filter]; [constructor |].
    destruct (is_command c); [now apply sublist_skip | now apply sublist_cons].
  - intros code'. apply List.filter_app.
  - reflexivity.
  - induction code as [| c code IH]; cbn [List.filter]; [reflexivity |].
    intros H. apply Forall_cons in H as [Hc H]. apply is_command_In in Hc.
    rewrite Hc. f_equal. now apply IH.
  - induction code as [| c code IH]; cbn [List.filter]; [reflexivity |].
    destruct (is_command c) eqn:E; cbn [List.filter]; [| assumption].
    rewrite E. now f_equal.
Qed.

Lemma cleanup_keeps_commands_witness :
  count_occ ascii_dec (cleanup (prog "add two: ++, then -")) "+"%char = 2%nat /\
  count_occ ascii_dec (cleanup (prog "add two: ++, then -")) "a"%char = 0%nat /\
  cleanup (prog "+[->+<]") = prog "+[->+<]".
Proof.
  split; [| split].
  - refine (proj1 (proj2 (cleanup_keeps_commands (prog "add two: ++, then -"))) "+"%char _).
    apply is_command_In. reflexivity.
  - refine (proj1 (proj2 (proj2 (cleanup_keeps_commands (prog "add two: ++, then -"))))
              "a"%char _).
    intros H. apply is_command_In in H. discriminate.
  - refine (proj1 (proj2 (proj2 (proj2 (proj2 (proj2 (proj2
              (cleanup_keeps_commands (prog "+[->+<]")))))))) _).
    repeat (apply Forall_cons; split; [apply is_command_In; reflexivity |]).
    constructor.
Defined.

(** The cleaned text, on an example with comments and repeated commands. *)
Lemma cleanup_example :
  cleanup (prog "add two: ++, then -") = prog "++,-".
Proof. reflexivity. Qed.

Lemma depth_scan_cleanup code : forall d : nat,
  depth_scan (cleanup code) d = depth_scan code d.
Proof.
  unfold cleanup.
  induction code as [| c code IH]; intros d; cbn [List.filter depth_scan]; [reflexivity |].
  destruct (Ascii.eqb_spec c "["%char) as [-> | Hopen].
  { change (is_command "[") with true. cbn. apply IH. }
  destruct (Ascii.eqb_spec c "]"%char) as [-> | Hclose].
  { change (is_command "]") with true. cbn. destruct d; [reflexivity | apply IH]. }
  destruct (is_command c); cbn [depth_scan]; [| apply IH].
  destruct (Ascii.eqb_spec c "["%char); [contradiction |].
  destruct (Ascii.eqb_spec c "]"%char); [contradiction | apply IH].
Qed.

(** X14: [cleanup] leaves the bracket structure of the text alone, comments
    or not: the nesting depth it ends at is the same, so the cleaned program
    is balanced, or has an unmatched closing bracket, exactly when the text
    does; and [execute] on a text with an unmatched closing bracket ends with
    [IndexError] before any instruction runs. *)
Theorem cleanup_preserves_brackets code :
  (forall d : nat, depth_scan (cleanup code) d = depth_scan code d) /\
  (balanced (cleanup code) <-> balanced code) /\
  (unmatched_close (cleanup code) <-> unmatched_close code) /\
  (unmatched_close code ->
   forall fuel input, execute fuel code input = Crashed IndexError (initial input)).
Proof.
  split; [apply depth_scan_cleanup |].
  unfold balanced, unmatched_close. rewrite depth_scan_cleanup.
  split; [reflexivity |]. split; [reflexivity |].
  intros H fuel input. unfold execute, interpret.
  rewrite make_brace_map_unmatched_close; [reflexivity |].
  unfold unmatched_close. now rewrite depth_scan_cleanup.
Qed.

Lemma cleanup_preserves_brackets_witness :
  execute 10 (prog "add one] then stop") [65] = Crashed IndexError (initial [65]).
Proof.
  apply (proj2 (proj2 (proj2 (cleanup_preserves_brackets (prog "add one] then stop"))))).
  reflexivity.
Defined.

(** *** Positions before and after [cleanup] *)

Lemma cleanup_app code1 code2 : cleanup (code1 ++ code2) = cleanup code1 ++ cleanup code2.
Proof. unfold cleanup. apply List.filter_app. Qed.

Lemma clean_pos_S code (i : nat) c :
  code !! i = Some c ->
  clean_pos code (S i) = (clean_pos code i + if is_command c then 1 else 0)%nat.
Proof.
  intros Hc. unfold clean_pos.
  change (firstn (S i) code) with (take (S i) code).
  rewrite (take_S_r _ _ _ Hc), cleanup_app, length_app. f_equal.
  unfold cleanup. cbn [List.filter]. now destruct (is_command c).
Qed.

Lemma clean_pos_end code (i : nat) :
  (length code <= i)%nat -> clean_pos code i = length (cleanup code).
Proof. intros H. unfold clean_pos. now rewrite firstn_all2. Qed.

Lemma clean_pos_mono code (i j : nat) :
  (i <= j)%nat -> (clean_pos code i <= clean_pos code j)%nat.
Proof.
  induction 1 as [| j Hle IH]; [lia |].
  destruct (code !! j) as [c |] eqn:Hc.
  - rewrite (clean_pos_S _ _ _ Hc). lia.
  - apply lookup_ge_None in Hc.
    rewrite (clean_pos_end code (S j)) by lia. now rewrite (clean_pos_end code j) in IH.
Qed.

Lemma clean_pos_lt code (i j : nat) c :
  code !! i = Some c -> is_command c = true -> (i < j)%nat ->
  (clean_pos code i < clean_pos code j)%nat.
Proof.
  intros Hc Hcmd Hlt. pose proof (clean_pos_mono code (S i) j Hlt) as H.
  rewrite (clean_pos_S _ _ _ Hc), Hcmd in H. lia.
Qed.

(** Two commands at different positions stay at different positions. *)
Lemma clean_pos_inj code (i j : nat) c c' :
  code !! i = Some c -> is_command c = true ->
  code !! j = Some c' -> is_command c' = true ->
  clean_pos code i = clean_pos code j -> i = j.
Proof.
  intros Hi Hci Hj Hcj E.
  destruct (Nat.lt_trichotomy i j) as [H | [H | H]]; [| assumption |].
  - pose proof (clean_pos_lt code i j c Hi Hci H). lia.
  - pose proof (clean_pos_lt code j i c' Hj Hcj H). lia.
Qed.

(** A command is where [clean_pos] says. *)
Lemma lookup_clean_pos code (i : nat) c :
  code !! i = Some c -> is_command c = true ->
  cleanup code !! clean_pos code i = Some c.
Proof.
  intros Hc Hcmd. pose proof (take_drop_middle code i c Hc) as E0.
  apply (f_equal cleanup) in E0. rewrite cleanup_app in E0. rewrite <- E0.
  unfold clean_pos. change (firstn i code) with (take i code).
  assert (E : cleanup (c :: drop (S i) code) = c :: cleanup (drop (S i) code))
    by (unfold cleanup; cbn [List.filter]; now rewrite Hcmd).
  rewrite E. apply list_lookup_middle. reflexivity.
Qed.

Lemma bracket_is_command c : c = "["%char \/ c = "]"%char -> is_command c = true.
Proof. now intros [-> | ->]. Qed.

(** *** The brace map before and after [cleanup] *)

Lemma brace_struct_push code (pos : nat) stack bm :
  code !! pos = Some "["%char ->
  brace_struct code pos stack bm -> brace_struct code (S pos) (stack ++ [pos]) bm.
Proof.
  intros Hc (Hpair & Hstack & Hclose). split; [assumption |]. split.
  - intros k Hk. apply elem_of_app in Hk as [Hk | Hk]; [now apply Hstack |].
    apply list_elem_of_singleton in Hk. now subst.
  - intros k Hk Hkc. apply Hclose; [| assumption].
    assert (k <> pos) by (intros ->; congruence). lia.
Qed.

Lemma brace_struct_skip code (pos : nat) stack bm c :
  code !! pos = Some c -> c <> "]"%char ->
  brace_struct code pos stack bm -> brace_struct code (S pos) stack bm.
Proof.
  intros Hc Hne (Hpair & Hstack & Hclose). split; [assumption |]. split; [assumption |].
  intros k Hk Hkc. apply Hclose; [| assumption].
  assert (k <> pos) by (intros ->; congruence). lia.
Qed.

Lemma brace_struct_pop code (pos start : nat) stack bm :
  code !! pos = Some "]"%char ->
  brace_inv pos (start :: stack) bm ->
  brace_struct code pos (start :: stack) bm ->
  brace_struct code (S pos) stack (<[pos := start]> (<[start := pos]> bm)).
Proof.
  intros Hc (Hi1 & Hi2 & Hi3 & Hi4) (Hpair & Hstack & Hclose).
  destruct (Hi3 start) as [Hlt Hnone]; [left |].
  assert (Hstart : code !! start = Some "["%char) by (apply Hstack; left).
  split; [| split].
  - intros k q Hk.
    destruct (decide (k = pos)) as [-> | Hkp].
    { rewrite lookup_insert_eq in Hk. injection Hk as <-. right. auto. }
    rewrite lookup_insert_ne in Hk by lia.
    destruct (decide (k = start)) as [-> | Hks].
    { rewrite lookup_insert_eq in Hk. injection Hk as <-. left. auto. }
    rewrite lookup_insert_ne in Hk by lia. now apply Hpair.
  - intros k Hk. apply Hstack. now right.
  - intros k Hk Hkc. rewrite !lookup_insert_is_Some'.
    destruct (decide (k = pos)) as [-> | Hkp]; [now left |].
    right. right. apply Hclose; [lia | assumption].
Qed.

Lemma brace_maps_agree_pop code (pos start : nat) bm bm' :
  code !! pos = Some "]"%char -> code !! start = Some "["%char ->
  brace_maps_agree code bm bm' ->
  brace_maps_agree code
    (<[pos := start]> (<[start := pos]> bm))
    (<[clean_pos code pos := clean_pos code start]>
       (<[clean_pos code start := clean_pos code pos]> bm')).
Proof.
  intros Hpos Hstart Hagree i c Hi Hbr.
  pose proof (bracket_is_command c Hbr) as Hcmd.
  destruct (decide (i = pos)) as [-> | Hip].
  { now rewrite !lookup_insert_eq. }
  assert (clean_pos code pos <> clean_pos code i).
  { intros E. apply Hip. symmetry.
    exact (clean_pos_inj code pos i _ _ Hpos eq_refl Hi Hcmd E). }
  rewrite !(lookup_insert_ne _ pos) by congruence.
  rewrite !(lookup_insert_ne _ (clean_pos code pos)) by assumption.
  destruct (decide (i = start)) as [-> | His].
  { now rewrite !lookup_insert_eq. }
  assert (clean_pos code start <> clean_pos code i).
  { intros E. apply His. symmetry.
    exact (clean_pos_inj code start i _ _ Hstart eq_refl Hi Hcmd E). }
  rewrite !lookup_insert_ne by congruence. now apply (Hagree i c).
Qed.

Lemma brace_loop_cleanup code : forall rest pre stack bm bm',
  code = pre ++ rest ->
  brace_inv (length pre) stack bm ->
  brace_struct code (length pre) stack bm ->
  brace_maps_agree code bm bm' ->
  match brace_loop rest (length pre) stack bm with
  | Ok bmF =>
      exists bmF',
        brace_loop (cleanup rest) (clean_pos code (length pre))
          (clean_pos code <$> stack) bm' = Ok bmF' /\
        brace_maps_agree code bmF bmF'
  | Raise e =>
      brace_loop (cleanup rest) (clean_pos code (length pre))
        (clean_pos code <$> stack) bm' = Raise e
  end.
Proof.
  induction rest as [| c rest IH]; intros pre stack bm bm' Hcode Hinv Hstr Hagree.
  - cbn. eauto.
  - assert (Hcode' : code = (pre ++ [c]) ++ rest) by (now rewrite <- app_assoc).
    assert (Hlen : length (pre ++ [c]) = S (length pre))
      by (rewrite length_app; cbn; lia).
    assert (Hc : code !! length pre = Some c) by (subst code; apply lookup_middle_char).
    specialize (IH (pre ++ [c])). rewrite Hlen in IH.
    pose proof (clean_pos_S code _ c Hc) as HS.
    unfold cleanup. cbn [List.filter brace_loop]. fold (cleanup rest).
    destruct (Ascii.eqb_spec c "["%char) as [-> | Hopen].
    { change (is_command "[") with true in *. cbn [brace_loop]. cbn [Ascii.eqb Bool.eqb].
      rewrite Nat.add_1_r in HS.
      specialize (IH (stack ++ [length pre]) bm bm' Hcode' (brace_inv_push _ _ _ Hinv)
                    (brace_struct_push _ _ _ _ Hc Hstr) Hagree).
      rewrite fmap_app, HS in IH. exact IH. }
    destruct (Ascii.eqb_spec c "]"%char) as [-> | Hclose].
    { change (is_command "]") with true in *. cbn [brace_loop]. cbn [Ascii.eqb Bool.eqb].
      rewrite Nat.add_1_r in HS.
      destruct stack as [| start stack]; [reflexivity |].
      cbn [fmap list_fmap].
      assert (Hstart : code !! start = Some "["%char)
        by (destruct Hstr as (_ & Hstack & _); apply Hstack; left).
      specialize (IH stack _ _ Hcode' (brace_inv_pop _ _ _ _ Hinv)
                    (brace_struct_pop _ _ _ _ _ Hc Hinv Hstr)
                    (brace_maps_agree_pop _ _ _ _ _ Hc Hstart Hagree)).
      rewrite HS in IH. exact IH. }
    specialize (IH stack bm bm' Hcode' (brace_inv_skip _ _ _ Hinv)
                  (brace_struct_skip _ _ _ _ _ Hc Hclose Hstr) Hagree).
    destruct (is_command c).
    + cbn [brace_loop].
      destruct (Ascii.eqb_spec c "["%char); [contradiction |].
      destruct (Ascii.eqb_spec c "]"%char); [contradiction |].
      rewrite Nat.add_1_r in HS. rewrite HS in IH. exact IH.
    + rewrite Nat.add_0_r in HS. rewrite HS in IH. exact IH.
Qed.

(** X15: the brace map of the cleaned program is the brace map of the text
    with every position moved to where [cleanup] puts it, and
    [make_brace_map] raises on the one exactly when it raises on the other. *)
Theorem make_brace_map_cleanup code :
  match make_brace_map code with
  | Ok bm =>
      exists bm', make_brace_map (cleanup code) = Ok bm' /\
        forall (i : nat) (c : ascii), code !! i = Some c -> c = "["%char \/ c = "]"%char ->
          bm' !! clean_pos code i = clean_pos code <$> (bm !! i)
  | Raise e => make_brace_map (cleanup code) = Raise e
  end.
Proof.
  assert (H0 : brace_maps_agree code ∅ ∅).
  { intros i c _ _. now rewrite !lookup_empty. }
  exact (brace_loop_cleanup code code [] [] ∅ ∅ eq_refl brace_inv_init
           (brace_struct_init code) H0).
Qed.

(** *** Runs before and after [cleanup] *)

#[local] Arguments clean_pos : simpl never.

Lemma dispatch_comment bm c s : is_command c = false -> dispatch bm c s = Ok s.
Proof.
  intros H. unfold is_command, commands in H. cbn in H.
  repeat (apply orb_false_elim in H as [? H]).
  unfold dispatch.
  repeat match goal with
  | E : Ascii.eqb c ?x = false |- context [Ascii.eqb c ?x] => rewrite E
  end.
  reflexivity.
Qed.

(** The exceptions of the tape operations carry no position. *)
Lemma get_data_raises m e : Array.get_data m = Raise e -> e = IndexError.
Proof. unfold Array.get_data. destruct (_ !! _); congruence. Qed.

Lemma set_data_raises n m e : Array.set_data n m = Raise e -> e = IndexError.
Proof. unfold Array.set_data. case_decide; congruence. Qed.

Lemma left_raises m e : Array.left m = Raise e -> e = ValueError.
Proof. unfold Array.left. case_decide; congruence. Qed.

Ltac tape_raises :=
  repeat match goal with
  | |- context [Array.get_data ?x] =>
      let E := fresh "E" in
      destruct (Array.get_data x) eqn:E; cbn;
      [| intros [= <-]; exact (get_data_raises _ _ E)]
  | |- context [Array.set_data ?n ?x] =>
      let E := fresh "E" in
      destruct (Array.set_data n x) eqn:E; cbn;
      [| intros [= <-]; exact (set_data_raises _ _ _ E)]
  | |- context [if ?b then _ else _] => destruct b
  end;
  try discriminate.

Lemma increment_raises m e : Array.increment m = Raise e -> e = IndexError.
Proof. unfold Array.increment. tape_raises. Qed.

Lemma decrement_raises m e : Array.decrement m = Raise e -> e = IndexError.
Proof. unfold Array.decrement. tape_raises. Qed.

Ltac same_step :=
  cbn;
  first
    [ reflexivity
    | eexists; split; [reflexivity |]; unfold same_world; cbn; now auto 10 ].

(** A command does to the state of the cleaned run what it does to the state
    of the run on the text. *)
Lemma dispatch_cleanup code bm bm' c s t :
  brace_maps_agree code bm bm' ->
  code !! position s = Some c ->
  same_world s t -> position t = clean_pos code (position s) ->
  match dispatch bm c s with
  | Ok s1 =>
      exists t1, dispatch bm' c t = Ok t1 /\ same_world s1 t1 /\
        position t1 = clean_pos code (position s1) /\
        (position s1 = position s \/ bm !! position s = Some (position s1))
  | Raise e => dispatch bm' c t = Raise (clean_exn code e)
  end.
Proof.
  intros Hagree Hc Hw Hpos.
  destruct s as [m pos i o l], t as [m' pos' i' o' l'].
  destruct Hw as (Hm & Hi & Ho & Hl). cbn in Hm, Hi, Ho, Hl, Hpos, Hc. subst m' i' o' l' pos'.
  unfold dispatch. cbn [machine position stdin stdout log].
  destruct (Ascii.eqb_spec c ">"%char); [same_step |].
  destruct (Ascii.eqb_spec c "<"%char).
  { destruct (Array.left m) eqn:E; [same_step |].
    rewrite (left_raises _ _ E). same_step. }
  destruct (Ascii.eqb_spec c "+"%char).
  { destruct (Array.increment m) as [[m1 l1] |] eqn:E; [same_step |].
    rewrite (increment_raises _ _ E). same_step. }
  destruct (Ascii.eqb_spec c "-"%char).
  { destruct (Array.decrement m) as [[m1 l1] |] eqn:E; [same_step |].
    rewrite (decrement_raises _ _ E). same_step. }
  destruct (Ascii.eqb_spec c "."%char).
  { destruct (Array.get_data m) as [v |] eqn:E;
      [| rewrite (get_data_raises _ _ E); same_step].
    cbn. destruct ((0 <=? v) && (v <? 1114112)); same_step. }
  destruct (Ascii.eqb_spec c ","%char).
  { destruct i as [| x input]; [same_step |].
    destruct (Array.set_data x m) eqn:E; [same_step |].
    rewrite (set_data_raises _ _ _ E). same_step. }
  destruct (Ascii.eqb_spec c "["%char) as [-> | ].
  { destruct (Array.get_data m) as [v |] eqn:E;
      [| rewrite (get_data_raises _ _ E); same_step].
    cbn. destruct (v =? 0); [| same_step]. unfold brace_lookup. cbn.
    rewrite (Hagree pos "["%char Hc (or_introl eq_refl)).
    destruct (bm !! pos) as [q |]; same_step. }
  destruct (Ascii.eqb_spec c "]"%char) as [-> | ].
  { destruct (Array.get_data m) as [v |] eqn:E;
      [| rewrite (get_data_raises _ _ E); same_step].
    cbn. destruct (negb (v =? 0)); [| same_step]. unfold brace_lookup. cbn.
    rewrite (Hagree pos "]"%char Hc (or_intror eq_refl)).
    destruct (bm !! pos) as [q |]; same_step. }
  same_step.
Qed.

Section Simulation.

Variables (code : list ascii) (bm bm' : gmap nat nat).
Hypothesis Hagree : brace_maps_agree code bm bm'.
Hypothesis Hkeys : forall k q : nat, bm !! k = Some q ->
  exists c, code !! q = Some c /\ is_command c = true.

Lemma step_cleanup_command c s t :
  code !! position s = Some c -> is_command c = true ->
  same_world s t -> position t = clean_pos code (position s) ->
  match step code bm s with
  | Ok s1 =>
      exists t1, step (cleanup code) bm' t = Ok t1 /\ same_world s1 t1 /\
        position t1 = clean_pos code (position s1)
  | Raise e => step (cleanup code) bm' t = Raise (clean_exn code e)
  end.
Proof.
  intros Hc Hcmd Hw Hpos. unfold step.
  rewrite Hc, Hpos, (lookup_clean_pos code _ c Hc Hcmd).
  pose proof (dispatch_cleanup code bm bm' c s t Hagree Hc Hw Hpos) as Hd.
  destruct (dispatch bm c s) as [s1 | e]; cbn.
  - destruct Hd as (t1 & -> & Hw1 & Hp1 & Hjump). cbn.
    eexists. split; [reflexivity |]. split.
    + destruct Hw1 as (? & ? & ? & ?). repeat split; assumption.
    + cbn. rewrite Hp1.
      assert (exists c1, code !! position s1 = Some c1 /\ is_command c1 = true)
        as (c1 & Hc1 & Hcmd1).
      { destruct Hjump as [-> | Hq]; [eauto | exact (Hkeys _ _ Hq)]. }
      rewrite (clean_pos_S code _ c1 Hc1), Hcmd1. lia.
  - now rewrite Hd.
Qed.

Lemma step_cleanup_comment c s :
  code !! position s = Some c -> is_command c = false ->
  step code bm s = Ok (with_position s (S (position s))) /\
  clean_pos code (S (position s)) = clean_pos code (position s).
Proof.
  intros Hc Hcmd. split.
  - unfold step. rewrite Hc, (dispatch_comment bm c s Hcmd). reflexivity.
  - rewrite (clean_pos_S code _ c Hc), Hcmd. lia.
Qed.

Lemma same_world_with_position s t (p : nat) :
  same_world s t -> same_world (with_position s p) t.
Proof. now intros (? & ? & ? & ?). Qed.

Lemma run_cleanup_end (fuel : nat) s t :
  (length code <= position s)%nat -> position t = clean_pos code (position s) ->
  run fuel code bm s = Finished s /\ run 0 (cleanup code) bm' t = Finished t.
Proof.
  intros Hge Hpos. rewrite (clean_pos_end code _ Hge) in Hpos. split.
  - destruct fuel; cbn [run]; now rewrite decide_False by lia.
  - cbn [run]. now rewrite decide_False by lia.
Qed.

(** What the run on the text ends with, the cleaned run ends with. *)
Lemma run_cleanup (fuel : nat) : forall s t,
  same_world s t -> position t = clean_pos code (position s) ->
  match run fuel code bm s with
  | Finished s' =>
      exists (fuel' : nat) t', (fuel' <= fuel)%nat /\
        run fuel' (cleanup code) bm' t = Finished t' /\ same_world s' t'
  | Crashed e s' =>
      exists (fuel' : nat) t', (fuel' <= fuel)%nat /\
        run fuel' (cleanup code) bm' t = Crashed (clean_exn code e) t' /\ same_world s' t'
  | OutOfFuel _ => True
  end.
Proof.
  induction fuel as [| fuel IH]; intros s t Hw Hpos.
  - destruct (decide (position s < length code)%nat) as [Hlt | Hge].
    + cbn [run]. now rewrite decide_True by assumption.
    + destruct (run_cleanup_end 0 s t) as [-> Hq]; [lia | assumption |].
      exists 0%nat, t. auto.
  - destruct (decide (position s < length code)%nat) as [Hlt | Hge].
    2:{ destruct (run_cleanup_end (S fuel) s t) as [-> Hq]; [lia | assumption |].
        exists 0%nat, t. split; [lia | auto]. }
    destruct (lookup_lt_is_Some_2 code _ Hlt) as [c Hc].
    cbn [run]. rewrite decide_True by assumption.
    destruct (is_command c) eqn:Hcmd.
    + pose proof (step_cleanup_command c s t Hc Hcmd Hw Hpos) as Hs.
      pose proof (lookup_lt_Some _ _ _ (lookup_clean_pos code _ c Hc Hcmd)) as Hlt'.
      rewrite <- Hpos in Hlt'.
      destruct (step code bm s) as [s1 | e].
      * destruct Hs as (t1 & Hstep & Hw1 & Hp1).
        specialize (IH s1 t1 Hw1 Hp1).
        destruct (run fuel code bm s1) as [s' | e s' | s']; [| | exact I].
        -- destruct IH as (fuel' & t' & Hle & Hrun & Hw').
           exists (S fuel'), t'. split; [lia |]. split; [| assumption].
           cbn [run]. rewrite decide_True by assumption. now rewrite Hstep.
        -- destruct IH as (fuel' & t' & Hle & Hrun & Hw').
           exists (S fuel'), t'. split; [lia |]. split; [| assumption].
           cbn [run]. rewrite decide_True by assumption. now rewrite Hstep.
      * exists 1%nat, t. split; [lia |]. split; [| assumption].
        cbn [run]. rewrite decide_True by assumption. now rewrite Hs.
    + destruct (step_cleanup_comment c s Hc Hcmd) as [-> HS].
      specialize (IH (with_position s (S (position s))) t
                    (same_world_with_position _ _ _ Hw)).
      cbn [position with_position] in IH. rewrite HS in IH. specialize (IH Hpos).
      destruct (run fuel code bm (with_position s (S (position s)))) as [s' | e s' | s'];
        [| | exact I].
      * destruct IH as (fuel' & t' & Hle & Hrun & Hw'). exists fuel', t'.
        split; [lia | auto].
      * destruct IH as (fuel' & t' & Hle & Hrun & Hw'). exists fuel', t'.
        split; [lia | auto].
Qed.

(** Reasoning about a run on the text from a state the cleaned run is
    related to: skip the comments up to the next command or the end. *)
Lemma through_comments (Q : state -> Prop) t :
  (forall s, same_world s t -> position t = clean_pos code (position s) ->
     (length code <= position s)%nat -> Q s) ->
  (forall s c, same_world s t -> position t = clean_pos code (position s) ->
     code !! position s = Some c -> is_command c = true -> Q s) ->
  (forall s c, code !! position s = Some c -> is_command c = false ->
     Q (with_position s (S (position s))) -> Q s) ->
  forall s, same_world s t -> position t = clean_pos code (position s) -> Q s.
Proof.
  intros Hend Hcmd Hskip s. remember (length code - position s)%nat as n eqn:Hn.
  revert s Hn. induction n as [| n IH]; intros s Hn Hw Hpos.
  - apply Hend; [assumption | assumption | lia].
  - destruct (lookup_lt_is_Some_2 code (position s)) as [c Hc]; [lia |].
    destruct (is_command c) eqn:E.
    + now apply (Hcmd s c).
    + apply (Hskip s c Hc E).
      destruct (step_cleanup_comment c s Hc E) as [_ HS].
      apply IH; [cbn; lia | now apply same_world_with_position | cbn; now rewrite HS].
Qed.

(** What the cleaned run ends with, the run on the text ends with. *)
Lemma run_cleanup_back (fuel' : nat) : forall s t,
  same_world s t -> position t = clean_pos code (position s) ->
  match run fuel' (cleanup code) bm' t with
  | Finished t' =>
      exists (fuel : nat) s', run fuel code bm s = Finished s' /\ same_world s' t'
  | Crashed e' t' =>
      exists (fuel : nat) e s',
        run fuel code bm s = Crashed e s' /\ clean_exn code e = e' /\ same_world s' t'
  | OutOfFuel _ => True
  end.
Proof.
  induction fuel' as [| k IH]; intros s t; revert s;
    apply through_comments.
  - intros s Hw Hpos Hge.
    destruct (run_cleanup_end 0 s t Hge Hpos) as [Hs ->]. eauto.
  - intros s c Hw Hpos Hc Hcmd.
    pose proof (lookup_lt_Some _ _ _ (lookup_clean_pos code _ c Hc Hcmd)) as Hlt'.
    rewrite <- Hpos in Hlt'. cbn [run]. now rewrite decide_True by assumption.
  - intros s c Hc Hcmd HQ. destruct (step_cleanup_comment c s Hc Hcmd) as [Hstep _].
    pose proof (lookup_lt_Some _ _ _ Hc) as Hlt.
    destruct (run 0 (cleanup code) bm' t) as [t' | e' t' | t']; [| | exact I].
    + destruct HQ as (fuel & s' & Hrun & Hw'). exists (S fuel), s'.
      split; [| assumption]. cbn [run]. rewrite decide_True by assumption.
      now rewrite Hstep.
    + destruct HQ as (fuel & e & s' & Hrun & He & Hw'). exists (S fuel), e, s'.
      split; [| auto]. cbn [run]. rewrite decide_True by assumption.
      now rewrite Hstep.
  - intros s Hw Hpos Hge.
    destruct (run_cleanup_end 0 s t Hge Hpos) as [Hs Ht].
    assert (Ht' : run (S k) (cleanup code) bm' t = Finished t).
    { rewrite (clean_pos_end code _ Hge) in Hpos. cbn [run].
      now rewrite decide_False by lia. }
    rewrite Ht'. eauto.
  - intros s c Hw Hpos Hc Hcmd.
    pose proof (lookup_lt_Some _ _ _ (lookup_clean_pos code _ c Hc Hcmd)) as Hlt'.
    rewrite <- Hpos in Hlt'. pose proof (lookup_lt_Some _ _ _ Hc) as Hlt.
    pose proof (step_cleanup_command c s t Hc Hcmd Hw Hpos) as Hs.
    cbn [run]. rewrite decide_True by assumption.
    destruct (step code bm s) as [s1 | e] eqn:Hstep.
    + destruct Hs as (t1 & -> & Hw1 & Hp1). specialize (IH s1 t1 Hw1 Hp1).
      destruct (run k (cleanup code) bm' t1) as [t' | e' t' | t']; [| | exact I].
      * destruct IH as (fuel & s' & Hrun & Hw'). exists (S fuel), s'.
        split; [| assumption]. cbn [run]. rewrite decide_True by assumption.
        now rewrite Hstep.
      * destruct IH as (fuel & e & s' & Hrun & He & Hw'). exists (S fuel), e, s'.
        split; [| auto]. cbn [run]. rewrite decide_True by assumption.
        now rewrite Hstep.
    + rewrite Hs. exists 1%nat, e, s. split; [| auto].
      cbn [run]. rewrite decide_True by assumption. now rewrite Hstep.
  - intros s c Hc Hcmd HQ. destruct (step_cleanup_comment c s Hc Hcmd) as [Hstep _].
    pose proof (lookup_lt_Some _ _ _ Hc) as Hlt.
    destruct (run (S k) (cleanup code) bm' t) as [t' | e' t' | t']; [| | exact I].
    + destruct HQ as (fuel & s' & Hrun & Hw'). exists (S fuel), s'.
      split; [| assumption]. cbn [run]. rewrite decide_True by assumption.
      now rewrite Hstep.
    + destruct HQ as (fuel & e & s' & Hrun & He & Hw'). exists (S fuel), e, s'.
      split; [| auto]. cbn [run]. rewrite decide_True by assumption.
      now rewrite Hstep.
Qed.

End Simulation.

Lemma same_world_refl s : same_world s s.
Proof. now repeat split. Qed.

Lemma brace_map_values_are_commands code bm (k q : nat) :
  make_brace_map code = Ok bm -> bm !! k = Some q ->
  exists c, code !! q = Some c /\ is_command c = true.
Proof.
  intros Hbm Hk.
  destruct (brace_map_keys_are_brackets code bm Hbm) as (Hpair & _).
  destruct (Hpair k q Hk) as [(_ & Hq & _) | (_ & Hq & _)]; eauto.
Qed.

(** X16: the characters [cleanup] removes are characters [interpret] would
    have ignored.  Whatever [interpret] ends with on a text, normally or with
    an exception, [execute] (which runs the cleaned text) ends with, in at
    most as many iterations, with the same tape, remaining input, output and
    log; and whatever [execute] ends with, [interpret] on the text itself
    ends with.  Only the position, and with it the key of a [KeyError],
    is counted in the cleaned text instead of the text. *)
Theorem cleanup_is_transparent code (input : list Z) :
  (forall fuel : nat,
     match interpret fuel code input with
     | Finished s =>
         exists (fuel' : nat) t, (fuel' <= fuel)%nat /\
           execute fuel' code input = Finished t /\ same_world s t
     | Crashed e s =>
         exists (fuel' : nat) t, (fuel' <= fuel)%nat /\
           execute fuel' code input = Crashed (clean_exn code e) t /\ same_world s t
     | OutOfFuel _ => True
     end) /\
  (forall fuel' : nat,
     match execute fuel' code input with
     | Finished t =>
         exists (fuel : nat) s, interpret fuel code input = Finished s /\ same_world s t
     | Crashed e' t =>
         exists (fuel : nat) e s,
           interpret fuel code input = Crashed e s /\ clean_exn code e = e' /\
           same_world s t
     | OutOfFuel _ => True
     end).
Proof.
  unfold execute, interpret. pose proof (make_brace_map_cleanup code) as Hmap.
  destruct (make_brace_map code) as [bm | e] eqn:Hbm.
  - destruct Hmap as (bm' & -> & Hagree).
    pose proof (fun k q => brace_map_values_are_commands code bm k q Hbm) as Hkeys.
    split; intros fuel.
    + exact (run_cleanup code bm bm' Hagree Hkeys fuel (initial input) (initial input)
               (same_world_refl _) eq_refl).
    + exact (run_cleanup_back code bm bm' Hagree Hkeys fuel (initial input) (initial input)
               (same_world_refl _) eq_refl).
  - rewrite Hmap.
    pose proof (proj1 (proj2 (make_brace_map_raises_iff code)) _ Hbm) as ->.
    split; intros fuel.
    + exists 0%nat, (initial input). split; [lia |]. split; [reflexivity | apply same_world_refl].
    + exists 0%nat, IndexError, (initial input).
      split; [reflexivity |]. split; [reflexivity | apply same_world_refl].
Qed.

(** [execute] on a text with comments, end to end. *)
Lemma execute_with_comments (fuel : nat) (input : list Z) :
  execute (7 + fuel) (prog "add 1 to the next cell: +[>+<-] done") input =
  Finished
    {| machine := {| Array.array := <[1%nat := 1]> (Array.array Array.init); Array.ptr := 0 |};
       position := 7; stdin := input; stdout := []; log := [] |}.
Proof.
  unfold execute.
  change (cleanup (prog "add 1 to the next cell: +[>+<-] done")) with (prog "+[>+<-]").
  unfold interpret. rewrite brace_map_transfer. unfold initial.
  rewrite init_unfold. cbn [Array.array]. generalize (replicate (Array.size - 2) 0).
  intros rest. destruct fuel; reflexivity.
Qed.

End Cleanup.

(** ** Input and output *)

Section InputOutput.

Import Array.

(** X17: a character read by [,] and written by the [.] that follows comes
    out as it went in, whatever code point it is (no reduction modulo 256):
    the two iterations take it from the front of the input, leave it in the
    current cell and append it to the output. *)
Theorem read_then_write_echoes (program : list ascii) (bm : gmap nat nat) (s : state)
    (c : Z) (rest : list Z) (fuel : nat) :
  program !! position s = Some ","%char ->
  program !! S (position s) = Some "."%char ->
  stdin s = c :: rest -> code_point c -> valid (machine s) ->
  run (2 + fuel) program bm s =
  run fuel program bm
    {| machine := set_cell c (machine s); position := S (S (position s));
       stdin := rest; stdout := stdout s ++ [c]; log := log s |}.
Proof.
  intros Hread Hwrite Hin Hc Hm.
  set (s1 := {| machine := set_cell c (machine s); position := S (position s);
                stdin := rest; stdout := stdout s; log := log s |}).
  assert (E1 : step program bm s = Ok s1).
  { unfold step. rewrite Hread. unfold dispatch. cbn. rewrite Hin.
    now rewrite (set_data_valid _ _ Hm). }
  assert (E2 : step program bm s1 =
               Ok {| machine := set_cell c (machine s); position := S (S (position s));
                     stdin := rest; stdout := stdout s ++ [c]; log := log s |}).
  { unfold step. cbn [position s1]. rewrite Hwrite. unfold dispatch. cbn.
    rewrite (get_data_set_cell _ _ Hm). cbn. unfold code_point in Hc.
    destruct (Z.leb_spec 0 c); [| lia]. destruct (Z.ltb_spec c 1114112); [| lia].
    reflexivity. }
  destruct (run_step program bm _ _ (S fuel) E1) as [R1 _].
  destruct (run_step program bm _ _ fuel E2) as [R2 _].
  change (2 + fuel)%nat with (S (S fuel)). now rewrite R1, R2.
Qed.

Lemma read_then_write_echoes_witness :
  run 2 (prog ",.") ∅
    {| machine := {| array := [0]; ptr := 0 |}; position := 0;
       stdin := [8364; 65]; stdout := []; log := [] |} =
  run 0 (prog ",.") ∅
    {| machine := {| array := [8364]; ptr := 0 |}; position := 2;
       stdin := [65]; stdout := [8364]; log := [] |}.
Proof.
  apply (read_then_write_echoes (prog ",.") ∅
           {| machine := {| array := [0]; ptr := 0 |}; position := 0;
              stdin := [8364; 65]; stdout := []; log := [] |} 8364 [65] 0);
    [reflexivity | reflexivity | reflexivity | unfold code_point; lia | unfold valid; cbn; lia].
Defined.

Lemma left_at_0_stops_run_witness :
  run 5 (prog "+<+") ∅
    {| machine := {| array := [1]; ptr := 0 |}; position := 1;
       stdin := []; stdout := []; log := [] |} =
  Crashed ValueError
    {| machine := {| array := [1]; ptr := 0 |}; position := 1;
       stdin := []; stdout := []; log := [] |}.
Proof.
  apply (left_at_0_stops_run (prog "+<+") ∅
           {| machine := {| array := [1]; ptr := 0 |}; position := 1;
              stdin := []; stdout := []; log := [] |} 4); reflexivity.
Defined.

End InputOutput.

(** ** Cell values along a run *)

Section RunRanges.

Import Array.

(** What one pass through the [if]/[elif] chain does to the tape and to the
    input: nothing, or one tape operation, where [set_data] is given the
    character taken from the input. *)
Lemma dispatch_tape_op (bm : gmap nat nat) (c : ascii) (s s' : state) :
  dispatch bm c s = Ok s' ->
  (machine s' = machine s /\ stdin s' = stdin s) \/
  (exists o, apply_op o (machine s) = Ok (machine s') /\
     match o with
     | Write n => stdin s = n :: stdin s'
     | _ => stdin s' = stdin s
     end).
Proof.
  unfold dispatch.
  destruct (Ascii.eqb_spec c ">"%char).
  { intros [= <-]. right. now exists MoveRight. }
  destruct (Ascii.eqb_spec c "<"%char).
  { destruct (left (machine s)) as [m' |] eqn:E; cbn; [| discriminate].
    intros [= <-]. right. now exists MoveLeft. }
  destruct (Ascii.eqb_spec c "+"%char).
  { destruct (increment (machine s)) as [[m' l] |] eqn:E; cbn; [| discriminate].
    intros [= <-]. right. exists Increment. cbn. now rewrite E. }
  destruct (Ascii.eqb_spec c "-"%char).
  { destruct (decrement (machine s)) as [[m' l] |] eqn:E; cbn; [| discriminate].
    intros [= <-]. right. exists Decrement. cbn. now rewrite E. }
  destruct (Ascii.eqb_spec c "."%char).
  { destruct (get_data (machine s)) as [v |]; cbn; [| discriminate].
    destruct ((0 <=? v) && (v <? 1114112)); [| discriminate].
    intros [= <-]. now left. }
  destruct (Ascii.eqb_spec c ","%char).
  { destruct (stdin s) as [| x input] eqn:Ein; [discriminate |].
    destruct (set_data x (machine s)) as [m' |] eqn:E; cbn; [| discriminate].
    intros [= <-]. right. now exists (Write x). }
  destruct (Ascii.eqb_spec c "["%char).
  { destruct (get_data (machine s)) as [v |]; cbn; [| discriminate].
    destruct (v =? 0); [| intros [= <-]; now left].
    destruct (brace_lookup bm (position s)); cbn; [| discriminate].
    intros [= <-]. now left. }
  destruct (Ascii.eqb_spec c "]"%char).
  { destruct (get_data (machine s)) as [v |]; cbn; [| discriminate].
    destruct (negb (v =? 0)); [| intros [= <-]; now left].
    destruct (brace_lookup bm (position s)); cbn; [| discriminate].
    intros [= <-]. now left. }
  intros [= <-]. now left.
Qed.

(** A property of the tape and the input that the tape operations keep is
    kept by every run. *)
Lemma run_tape_invariant (I : Array.t -> list Z -> Prop)
    (program : list ascii) (bm : gmap nat nat) :
  (forall o m m' inp, (forall n, o <> Write n) ->
     I m inp -> apply_op o m = Ok m' -> I m' inp) ->
  (forall n m m' inp, I m (n :: inp) -> set_data n m = Ok m' -> I m' inp) ->
  forall (fuel : nat) (s : state),
  I (machine s) (stdin s) ->
  I (machine (outcome_state (run fuel program bm s)))
    (stdin (outcome_state (run fuel program bm s))).
Proof.
  intros Hop Hwrite. induction fuel as [| fuel IH]; intros s Hs; cbn [run].
  - now destruct (decide (position s < length program)%nat).
  - destruct (decide (position s < length program)%nat); [| assumption].
    unfold step. destruct (program !! position s) as [c |]; [| assumption].
    destruct (dispatch bm c s) as [s1 | e] eqn:Hd; cbn; [| assumption].
    apply IH. cbn.
    destruct (dispatch_tape_op _ _ _ _ Hd) as [[-> ->] | (o & Ho & Hin)]; [assumption |].
    destruct o as [n | | | |].
    + rewrite Hin in Hs. exact (Hwrite n _ _ _ Hs Ho).
    + rewrite Hin. apply (Hop Increment (machine s)); [discriminate | assumption ..].
    + rewrite Hin. apply (Hop Decrement (machine s)); [discriminate | assumption ..].
    + rewrite Hin. apply (Hop MoveRight (machine s)); [discriminate | assumption ..].
    + rewrite Hin. apply (Hop MoveLeft (machine s)); [discriminate | assumption ..].
Qed.

(** X20: when every character of the input is a byte (0..255), every cell
    holds a value between 0 and 256 at every point of every run of
    [interpret]: 256, not 255, is the bound, as for the tape alone. *)
Theorem interpret_cells_with_byte_input (program : list ascii) (fuel : nat)
    (input : list Z) :
  Forall (fun c => 0 <= c <= 255) input ->
  cells_within 0 256 (machine (outcome_state (interpret fuel program input))).
Proof.
  intros Hin.
  set (I := fun (m : Array.t) (inp : list Z) =>
              valid m /\ cells_within 0 256 m /\ Forall (fun c => 0 <= c <= 255) inp).
  assert (H0 : I (machine (initial input)) (stdin (initial input))).
  { split; [apply valid_init |]. split; [| assumption]. apply cells_within_fresh. lia. }
  unfold interpret. destruct (make_brace_map program) as [bm | e]; [| apply H0].
  apply (run_tape_invariant I program bm); [| | assumption].
  - intros o m m' inp Hw (Hm & Hc & Hi) Hop.
    assert (is_write o = false) by (destruct o; [now destruct (Hw n) | reflexivity ..]).
    destruct (apply_op_within_256 o m m') as [Hm' Hc']; try assumption.
    now repeat split.
  - intros n m m' inp (Hm & Hc & Hi). rewrite (set_data_valid _ _ Hm). intros [= <-].
    apply Forall_cons in Hi as [Hn Hi].
    split; [now apply valid_set_cell |]. split; [| assumption].
    apply cells_within_set_cell; [assumption | lia].
Qed.

Lemma interpret_cells_with_byte_input_witness :
  cells_within 0 256 (machine (outcome_state (interpret 3 (prog ",+.") [255]))).
Proof.
  apply (interpret_cells_with_byte_input (prog ",+.") 3 [255]).
  repeat constructor; lia.
Defined.

(** The bound of X20 is reached: after [,+] on the input byte 255 the cell
    holds 256, and [.] writes the code point 256. *)
Lemma byte_input_reaches_256 (fuel : nat) (input : list Z) :
  interpret (3 + fuel) (prog ",+.") (255 :: input) =
  Finished
    {| machine := {| array := <[0%nat := 256]> (array init); ptr := 0 |};
       position := 3; stdin := input; stdout := [256]; log := [] |}.
Proof.
  unfold interpret, initial.
  change (make_brace_map (prog ",+.")) with (Ok (∅ : gmap nat nat)).
  rewrite init_unfold. cbn [array]. generalize (replicate (size - 2) 0). intros rest.
  destruct fuel; reflexivity.
Qed.

End RunRanges.
